(** * Event Hubs partition load balancers

    A shallow embedding of [GreedyPartitionLoadBalancer] and
    [FairPartitionLoadBalancer] (event-hubs, partitionLoadBalancer.ts) and
    the properties of their [loadBalance] methods.

    Conventions of the embedding:
    - a JavaScript [Map] is an association list in insertion order;
    - array lengths and counters are [nat], timestamps are [Z] milliseconds;
    - [Math.random()] is a rational [r : Q], and every property that needs
      it assumes its contract [0 <= r < 1];
    - [new Date().getTime()] is read once per ledger entry by the source
      ([_removeInactivePartitionOwnerships]); [clock i] is the reading taken
      at the [i]-th entry;
    - [undefined] is [None]; dereferencing it is the outcome [Throws]. *)

From Stdlib Require Import String List ZArith QArith Qround Bool Arith Lia Permutation.
Import ListNotations.

Local Open Scope string_scope.
Local Open Scope list_scope.
Local Open Scope nat_scope.

(** ** JavaScript values used by the balancers *)

(** The result of running a method: it returns, or raises a [TypeError]
    (a property read on [undefined]). *)
Inductive outcome (A : Type) : Type :=
| Returns (a : A)
| Throws.
Arguments Returns {A} a.
Arguments Throws {A}.

Class EqDec (K : Type) := eq_dec : forall x y : K, {x = y} + {x <> y}.

#[export] Instance string_EqDec : EqDec string := string_dec.

#[export] Instance option_EqDec {K : Type} `{EqDec K} : EqDec (option K).
Proof.
  intros [x|] [y|].
  - destruct (eq_dec x y) as [e|n]; [left; congruence | right; congruence].
  - right; discriminate.
  - right; discriminate.
  - left; reflexivity.
Defined.

(** [Map<K, V>]: entries in insertion order.  [set] on a key already present
    replaces the value in place, otherwise it appends. *)
Module JsMap.
Section Ops.
Context {K V : Type} `{EqDec K}.

Definition t := list (K * V).

Fixpoint get (k : K) (m : list (K * V)) : option V :=
  match m with
  | [] => None
  | (k', v) :: m' => if eq_dec k k' then Some v else get k m'
  end.

Definition has (k : K) (m : list (K * V)) : bool :=
  match get k m with Some _ => true | None => false end.

Fixpoint set (k : K) (v : V) (m : list (K * V)) : list (K * V) :=
  match m with
  | [] => [(k, v)]
  | (k', v') :: m' =>
      if eq_dec k k' then (k, v) :: m' else (k', v') :: set k v m'
  end.

Definition size (m : list (K * V)) : nat := length m.

Definition keys (m : list (K * V)) : list K := map fst m.

Definition values (m : list (K * V)) : list V := map snd m.
End Ops.
End JsMap.

(** [array[i]] for a number [i]: [undefined] out of range. *)
Definition array_at {A : Type} (l : list A) (i : Z) : option A :=
  if (i <? 0)%Z then None else nth_error l (Z.to_nat i).

(** [Math.floor(r * n)] with [r] the value of [Math.random()].  The product
    is exact here; the code rounds it to a double first, which keeps the
    index within [0, n) for [0 <= r < 1] but can move it to the next
    integer.  The properties below speak of the range of the index, not of
    its value. *)
Definition random_index (r : Q) (n : nat) : Z :=
  Qfloor (r * inject_Z (Z.of_nat n)).

(** [Number.MIN_VALUE]: the smallest positive double, 2^-1074. *)
Definition Number_MIN_VALUE : Q := 1 # (2 ^ 1074).

(** [a > b] on numbers. *)
Definition num_gt (a b : Q) : bool := negb (Qle_bool a b).

(** ** Data model *)

(** Modelled from the spec: the [PartitionOwnership] interface is declared in
    ./eventProcessor, which is not among the sources.  The three fields the
    balancers read are kept; a missing [ownerId] or [lastModifiedTimeInMS]
    is [None]. *)
Record PartitionOwnership : Type := {
  partitionId : string;
  ownerId : option string;
  lastModifiedTimeInMS : option Z
}.

(** The ownership ledger, [Map<string, PartitionOwnership>]. *)
Definition Ledger : Type := list (string * PartitionOwnership).

(** [Map<string, PartitionOwnership[]>], keyed by the owner id read from a
    record. *)
Definition OwnerPartitionMap : Type :=
  list (option string * list PartitionOwnership).

(** Truthiness of a string-or-undefined. *)
Definition truthy_string (s : option string) : bool :=
  match s with
  | Some s' => negb (s' =? "")%string
  | None => false
  end.

(** ** GreedyPartitionLoadBalancer *)

Module Greedy.

(** The field [partitionsToClaim?: Set<string>]; the set is kept as the
    list of its members. *)
Record GreedyPartitionLoadBalancer : Type := {
  partitionsToClaim : option (list string)
}.

(** [new Set(partitionIds)]. *)
Definition new_Set (ids : list string) : list string := nodup string_dec ids.

Definition Set_has (s : list string) (x : string) : bool :=
  if in_dec string_dec x s then true else false.

(** [constructor(partitionIds?)]: [partitionIds && new Set(partitionIds)]
    (an array, even empty, is truthy). *)
Definition constructor (partitionIds : option (list string))
  : GreedyPartitionLoadBalancer :=
  {| partitionsToClaim := option_map new_Set partitionIds |}.

Definition loadBalance (this : GreedyPartitionLoadBalancer)
    (partitionOwnershipMap : Ledger) (partitionsToAdd : list string)
  : list string :=
  let potential :=
    match partitionsToClaim this with
    | Some toClaim => filter (fun part => Set_has toClaim part) partitionsToAdd
    | None => partitionsToAdd
    end in
  filter (fun id => negb (JsMap.has id partitionOwnershipMap)) potential.

End Greedy.

(** ** FairPartitionLoadBalancer *)

Module Fair.

Record FairPartitionLoadBalancer : Type := {
  _ownerId : string;
  _inactiveTimeLimitInMS : Z
}.

Definition constructor (ownerId : string) (inactiveTimeLimitInMS : Z)
  : FairPartitionLoadBalancer :=
  {| _ownerId := ownerId; _inactiveTimeLimitInMS := inactiveTimeLimitInMS |}.

Section Methods.
Variable this : FairPartitionLoadBalancer.

(** One step of the [forEach] of [_findPartitionToSteal]: the state is
    [(maxList, maxPartitionsOwnedByAnyEventProcessor)]. *)
Definition steal_step (st : list PartitionOwnership * Q)
    (entry : option string * list PartitionOwnership)
  : list PartitionOwnership * Q :=
  let ownershipList := snd entry in
  if num_gt (inject_Z (Z.of_nat (length ownershipList))) (snd st)
  then (ownershipList, inject_Z (Z.of_nat (length ownershipList)))
  else st.

Definition maxOwnershipList (ownerPartitionMap : OwnerPartitionMap)
  : list PartitionOwnership :=
  fst (fold_left steal_step ownerPartitionMap ([], Number_MIN_VALUE)).

Definition _findPartitionToSteal (r : Q)
    (ownerPartitionMap : OwnerPartitionMap) : outcome string :=
  let maxList := maxOwnershipList ownerPartitionMap in
  match array_at maxList (random_index r (length maxList)) with
  | Some po => Returns (partitionId po)
  | None => Throws
  end.

Definition sumOfPartitionsOwned (ownerPartitionMap : OwnerPartitionMap)
  : nat :=
  fold_left (fun sum ownershipList => sum + length ownershipList)
            (JsMap.values ownerPartitionMap) 0.

Definition _shouldOwnMorePartitions (minPartitionsPerEventProcessor : nat)
    (partitionIds : list string) (ownerPartitionMap : OwnerPartitionMap)
  : outcome bool :=
  match JsMap.get (Some (_ownerId this)) ownerPartitionMap with
  | None => Throws
  | Some mine =>
      let numberOfPartitionsOwned := length mine in
      let sumOfPartitionsOwnedByAnyProcessor :=
        sumOfPartitionsOwned ownerPartitionMap in
      Returns
        ((numberOfPartitionsOwned <? minPartitionsPerEventProcessor)
         || ((sumOfPartitionsOwnedByAnyProcessor <? length partitionIds)
             && (numberOfPartitionsOwned
                 <? minPartitionsPerEventProcessor + 1)))
  end.

(** The loop of [_isLoadBalanced] over the values, with its counter. *)
Fixpoint isLoadBalanced_loop (minPartitionsPerEventProcessor : nat)
    (numberOfEventProcessorsWithAdditionalPartition : nat)
    (lists : list (list PartitionOwnership)) (count : nat) : bool :=
  match lists with
  | [] => count =? numberOfEventProcessorsWithAdditionalPartition
  | ownershipList :: rest =>
      let numberOfPartitions := length ownershipList in
      if (numberOfPartitions <? minPartitionsPerEventProcessor)
         || (minPartitionsPerEventProcessor + 1 <? numberOfPartitions)
      then false
      else
        isLoadBalanced_loop minPartitionsPerEventProcessor
          numberOfEventProcessorsWithAdditionalPartition rest
          (if numberOfPartitions =? minPartitionsPerEventProcessor + 1
           then S count else count)
  end.

Definition _isLoadBalanced (minPartitionsPerEventProcessor : nat)
    (numberOfEventProcessorsWithAdditionalPartition : nat)
    (ownerPartitionMap : OwnerPartitionMap) : bool :=
  isLoadBalanced_loop minPartitionsPerEventProcessor
    numberOfEventProcessorsWithAdditionalPartition
    (JsMap.values ownerPartitionMap) 0.

(** The condition of [_removeInactivePartitionOwnerships] on one record,
    [now] being [date.getTime()]: a chain of [&&] on a number-or-undefined,
    a comparison and a string-or-undefined. *)
Definition isActive (now : Z) (po : PartitionOwnership) : bool :=
  match lastModifiedTimeInMS po with
  | None => false
  | Some t =>
      negb (t =? 0)%Z
      && (now - t <? _inactiveTimeLimitInMS this)%Z
      && truthy_string (ownerId po)
  end.

(** The [forEach] of [_removeInactivePartitionOwnerships] from its
    [i]-th entry on, [acc] being [activePartitionOwnershipMap]. *)
Fixpoint removeInactive_loop (clock : nat -> Z) (i : nat)
    (entries : Ledger) (acc : Ledger) : Ledger :=
  match entries with
  | [] => acc
  | (pid, po) :: rest =>
      removeInactive_loop clock (S i) rest
        (if isActive (clock i) po then JsMap.set pid po acc else acc)
  end.

Definition _removeInactivePartitionOwnerships (clock : nat -> Z)
    (partitionOwnershipMap : Ledger) : Ledger :=
  removeInactive_loop clock 0 partitionOwnershipMap [].

(** One iteration of the grouping loop of [loadBalance]. *)
Definition group_step (ownerPartitionMap : OwnerPartitionMap)
    (activePartitionOwnership : PartitionOwnership) : OwnerPartitionMap :=
  let partitionOwnershipArray :=
    match JsMap.get (ownerId activePartitionOwnership) ownerPartitionMap with
    | Some a => a
    | None => []
    end in
  JsMap.set (ownerId activePartitionOwnership)
    (partitionOwnershipArray ++ [activePartitionOwnership])
    ownerPartitionMap.

(** The owner map of [loadBalance]: grouping, then the caller added when
    absent. *)
Definition buildOwnerPartitionMap (activePartitionOwnershipMap : Ledger)
  : OwnerPartitionMap :=
  let grouped :=
    fold_left group_step (JsMap.values activePartitionOwnershipMap) [] in
  if JsMap.has (Some (_ownerId this)) grouped then grouped
  else JsMap.set (Some (_ownerId this)) [] grouped.

Definition unOwnedPartitionIds (activePartitionOwnershipMap : Ledger)
    (partitionsToAdd : list string) : list string :=
  filter (fun pid => negb (JsMap.has pid activePartitionOwnershipMap))
         partitionsToAdd.

(** [loadBalance]; each path draws [Math.random()] at most once. *)
Definition loadBalance (clock : nat -> Z) (r : Q)
    (partitionOwnershipMap : Ledger) (partitionsToAdd : list string)
  : outcome (list (option string)) :=
  let activePartitionOwnershipMap :=
    _removeInactivePartitionOwnerships clock partitionOwnershipMap in
  if JsMap.size activePartitionOwnershipMap =? 0 then
    Returns [array_at partitionsToAdd
               (random_index r (length partitionsToAdd))]
  else
    let ownerPartitionMap :=
      buildOwnerPartitionMap activePartitionOwnershipMap in
    let minPartitionsPerEventProcessor :=
      length partitionsToAdd / JsMap.size ownerPartitionMap in
    let numberOfEventProcessorsWithAdditionalPartition :=
      length partitionsToAdd mod JsMap.size ownerPartitionMap in
    if _isLoadBalanced minPartitionsPerEventProcessor
         numberOfEventProcessorsWithAdditionalPartition ownerPartitionMap
    then Returns []
    else
      match _shouldOwnMorePartitions minPartitionsPerEventProcessor
              partitionsToAdd ownerPartitionMap with
      | Throws => Throws
      | Returns false => Returns []
      | Returns true =>
          let unOwned :=
            unOwnedPartitionIds activePartitionOwnershipMap
              partitionsToAdd in
          if length unOwned =? 0 then
            match _findPartitionToSteal r ownerPartitionMap with
            | Throws => Throws
            | Returns partitionToClaim => Returns [Some partitionToClaim]
            end
          else
            Returns [array_at unOwned (random_index r (length unOwned))]
      end.
End Methods.

End Fair.

(** * Vocabulary of the properties *)

(** The number of partitions each owner of the map holds, in map order. *)
Definition counts (ownerPartitionMap : OwnerPartitionMap) : list nat :=
  map (@length PartitionOwnership) (JsMap.values ownerPartitionMap).

(** The balanced predicate in the words of the specification: every owner
    holds between [minPerOwner] and [minPerOwner + 1] partitions, and exactly
    [extra] owners hold [minPerOwner + 1]. *)
Definition balanced_spec (minPerOwner extra : nat) (held : list nat) : Prop :=
  Forall (fun n => minPerOwner <= n <= minPerOwner + 1) held
  /\ length (filter (fun n => n =? minPerOwner + 1) held) = extra.

(** The invariant of the scan of [_findPartitionToSteal]: the running
    maximum compares with a length as the length of the running list does
    (at the start, [Number.MIN_VALUE] compares as the length 0). *)
Definition steal_inv (st : list PartitionOwnership * Q) : Prop :=
  forall n, num_gt (inject_Z (Z.of_nat n)) (snd st) = (length (fst st) <? n).

(** The record belongs to owner [o]. *)
Definition owner_is (o : option string) (po : PartitionOwnership) : bool :=
  if eq_dec (ownerId po) o then true else false.

(** The records of [records] whose owner is [o], in order. *)
Definition owned_by (o : option string) (records : list PartitionOwnership)
  : list PartitionOwnership :=
  filter (owner_is o) records.

(** What [Map.get] finds in the grouped map for an owner with records [l]:
    nothing when there is none. *)
Definition nonempty {A : Type} (l : list A) : option (list A) :=
  match l with [] => None | _ => Some l end.

(** The owner map after the grouping loop of [loadBalance], before the
    caller is added. *)
Definition grouped (records : list PartitionOwnership) : OwnerPartitionMap :=
  fold_left Fair.group_step records [].

(** The caller, as a key of the owner map. *)
Definition me (this : Fair.FairPartitionLoadBalancer) : option string :=
  Some (Fair._ownerId this).

(** The entries that pass the activity test, each against the clock reading
    taken at its position. *)
Fixpoint active_from (this : Fair.FairPartitionLoadBalancer)
    (clock : nat -> Z) (i : nat) (entries : Ledger) : Ledger :=
  match entries with
  | [] => []
  | (pid, po) :: rest =>
      if Fair.isActive this (clock i) po
      then (pid, po) :: active_from this clock (S i) rest
      else active_from this clock (S i) rest
  end.

(** The clock whose [n]-th reading is dropped. *)
Definition skip_reading (n : nat) (clock : nat -> Z) : nat -> Z :=
  fun j => if j <? n then clock j else clock (S j).

(** A record that is stale in the words of the specification: its heartbeat
    is missing or at least the threshold old, or it has no owner. *)
Definition stale_spec (this : Fair.FairPartitionLoadBalancer) (now : Z)
    (po : PartitionOwnership) : Prop :=
  match lastModifiedTimeInMS po with
  | None => True
  | Some t => (now - t >= Fair._inactiveTimeLimitInMS this)%Z
  end
  \/ match ownerId po with
     | None => True
     | Some s => s = ""
     end.

(** The number of active records held by owner [o]. *)
Definition held (active : Ledger) (o : option string) : nat :=
  length (owned_by o (JsMap.values active)).

(** The owners of the view: the caller, and every owner of an active
    record. *)
Definition view_owners (this : Fair.FairPartitionLoadBalancer)
    (active : Ledger) : list (option string) :=
  nodup eq_dec (me this :: map ownerId (JsMap.values active)).

(** The view is balanced for [P] candidate partitions. *)
Definition view_balanced (this : Fair.FairPartitionLoadBalancer)
    (active : Ledger) (P : nat) : Prop :=
  let owners := view_owners this active in
  balanced_spec (P / length owners) (P mod length owners)
                (map (held active) owners).

(** The claim list in the words of the specification: the candidates, in
    order, that are watched (all of them when no watched set was given) and
    are not keys of the ledger. *)
Definition greedy_claims (watched : option (list string)) (ledger : Ledger)
    (parts : list string) : list string :=
  filter (fun p =>
            match watched with
            | None => true
            | Some w => existsb (String.eqb p) w
            end
            && negb (existsb (fun e => String.eqb p (fst e)) ledger))
         parts.

(** A well-formed ledger: a [Map] (distinct keys) that files each record
    under its own partition id. *)
Definition wf_ledger (ledger : Ledger) : Prop :=
  NoDup (JsMap.keys ledger)
  /\ Forall (fun e => partitionId (snd e) = fst e) ledger.

(** [ceil(a / b)]. *)
Definition ceil_div (a b : nat) : nat := (a + b - 1) / b.

(** The conditions under which [loadBalance] reaches its steal branch. *)
Definition steal_branch (this : Fair.FairPartitionLoadBalancer)
    (active : Ledger) (parts : list string) : Prop :=
  let opm := Fair.buildOwnerPartitionMap this active in
  let minP := length parts / JsMap.size opm in
  active <> []
  /\ Fair._isLoadBalanced minP (length parts mod JsMap.size opm) opm = false
  /\ Fair._shouldOwnMorePartitions this minP parts opm = Returns true
  /\ Fair.unOwnedPartitionIds active parts = [].

(** The record a claim writes: the claimed partition, the claimer, and the
    time of the claim as heartbeat. *)
Definition claimed (now : Z) (owner pid : string)
  : string * PartitionOwnership :=
  (pid, {| partitionId := pid; ownerId := Some owner;
           lastModifiedTimeInMS := Some now |}).

(** Modelled from the spec: the caller loop (the event processor) is not
    among the sources.  It "persists any returned claim (with heartbeat
    timestamp = now)"; an [undefined] claim names no partition and leaves
    the ledger as it is. *)
Definition persist_claim (now : Z) (owner : string) (ledger : Ledger)
    (claim : option string) : Ledger :=
  match claim with
  | Some pid => JsMap.set pid (snd (claimed now owner pid)) ledger
  | None => ledger
  end.

(** One round of one instance: [loadBalance], then every claim persisted.
    The whole simulation runs at the instant [now], which keeps every
    heartbeat fresh. *)
Definition round (limit now : Z) (parts : list string) (ledger : Ledger)
    (caller : string) (r : Q) : Ledger :=
  match Fair.loadBalance (Fair.constructor caller limit) (fun _ => now) r
          ledger parts with
  | Returns claims => fold_left (persist_claim now caller) claims ledger
  | Throws => ledger
  end.

(** A sequential schedule: who calls, and with which random draw. *)
Fixpoint simulate (limit now : Z) (parts : list string)
    (schedule : list (string * Q)) (ledger : Ledger) : Ledger :=
  match schedule with
  | [] => ledger
  | (caller, r) :: rest =>
      simulate limit now parts rest (round limit now parts ledger caller r)
  end.

(** The instance that makes the [k]-th call when the instances take
    turns. *)
Definition turn (owners : list string) (k : nat) : string :=
  nth (k mod length owners) owners "".

(** The schedule in which the instances take turns, from turn [k] on, one
    call for each draw. *)
Fixpoint round_robin_from (owners : list string) (k : nat) (draws : list Q)
  : list (string * Q) :=
  match draws with
  | [] => []
  | r :: rest => (turn owners k, r) :: round_robin_from owners (S k) rest
  end.

Definition round_robin (owners : list string) (draws : list Q)
  : list (string * Q) :=
  round_robin_from owners 0 draws.

(** No instance claims anything any more. *)
Definition converged (limit now : Z) (owners parts : list string)
    (ledger : Ledger) : Prop :=
  forall o r, In o owners -> (0 <= r)%Q -> (r < 1)%Q ->
    Fair.loadBalance (Fair.constructor o limit) (fun _ => now) r ledger parts
    = Returns [].

(** The convergence property for an arbitrary order of calls: whatever the
    schedule of [P] rounds, some prefix of it leaves a converged ledger. *)
Definition converges_in_any_order (limit now : Z) (owners parts : list string)
  : Prop :=
  forall schedule,
    Forall (fun cr => In (fst cr) owners
                      /\ (0 <= snd cr)%Q /\ (snd cr < 1)%Q) schedule ->
    length schedule = length parts ->
    exists n, n <= length parts
      /\ converged limit now owners parts
           (simulate limit now parts (firstn n schedule) []).

(** The ledger after the partitions [pids] were claimed in turn, the first
    of them by the instance of turn [i]. *)
Fixpoint ledger_of (now : Z) (owners : list string) (i : nat)
    (pids : list string) : Ledger :=
  match pids with
  | [] => []
  | p :: ps => claimed now (turn owners i) p :: ledger_of now owners (S i) ps
  end.

(** The turns among [i, i + n) that fall to the [j]-th instance. *)
Definition hits (C j i n : nat) : nat :=
  length (filter (fun t => t mod C =? j) (seq i n)).

(** * Properties *)

(** ** Numbers: random indices and [Number.MIN_VALUE] *)

Lemma random_index_range (r : Q) (n : nat) :
  (0 <= r)%Q -> (r < 1)%Q -> 0 < n ->
  (0 <= random_index r n < Z.of_nat n)%Z.
Proof.
  intros H0 H1 Hn. unfold random_index.
  destruct r as [a d]. unfold Qle, Qlt in *. simpl in *.
  rewrite Z.mul_1_r in *.
  assert (Ha : (0 <= a)%Z) by lia.
  assert (Hd : (a < Z.pos d)%Z) by lia.
  rewrite Pos.mul_1_r.
  split.
  - apply Z.div_pos; [nia | lia].
  - apply Z.div_lt_upper_bound; [lia|]. nia.
Qed.

Lemma random_index_zero (r : Q) : random_index r 0 = 0%Z.
Proof.
  unfold random_index. destruct r as [a d]. simpl.
  rewrite Z.mul_0_r. apply Z.div_0_l. lia.
Qed.

Lemma array_at_random (A : Type) (l : list A) (r : Q) :
  (0 <= r)%Q -> (r < 1)%Q -> l <> [] ->
  exists x, array_at l (random_index r (length l)) = Some x /\ In x l.
Proof.
  intros H0 H1 Hl.
  assert (Hn : 0 < length l) by (destruct l; [congruence | simpl; lia]).
  destruct (random_index_range r (length l) H0 H1 Hn) as [Hlo Hhi].
  unfold array_at.
  destruct (Z.ltb_spec (random_index r (length l)) 0); [lia|].
  destruct (nth_error l (Z.to_nat (random_index r (length l)))) as [x|] eqn:E.
  - exists x. split; [reflexivity|]. eapply nth_error_In; eauto.
  - apply nth_error_None in E. lia.
Qed.

Lemma array_at_nil (A : Type) (i : Z) : array_at (@nil A) i = None.
Proof.
  unfold array_at. destruct (i <? 0)%Z; [reflexivity|].
  destruct (Z.to_nat i); reflexivity.
Qed.

Lemma num_gt_nat (a b : nat) :
  num_gt (inject_Z (Z.of_nat a)) (inject_Z (Z.of_nat b)) = (b <? a).
Proof.
  unfold num_gt, Qle_bool. simpl. rewrite !Z.mul_1_r.
  destruct (Nat.ltb_spec b a); destruct (Z.leb_spec (Z.of_nat a) (Z.of_nat b));
    simpl; try reflexivity; lia.
Qed.

Lemma num_gt_MIN_VALUE (a : nat) :
  num_gt (inject_Z (Z.of_nat a)) Number_MIN_VALUE = (0 <? a).
Proof.
  unfold num_gt, Qle_bool, Number_MIN_VALUE.
  cbn [Qnum Qden inject_Z].
  assert (Hp : (1 < Z.pos (2 ^ 1074))%Z) by (vm_compute; reflexivity).
  revert Hp. generalize (2 ^ 1074)%positive as p. intros p Hp.
  destruct (Nat.ltb_spec 0 a);
    destruct (Z.leb_spec (Z.of_nat a * Z.pos p) (1 * 1)); simpl;
    try reflexivity.
  - assert (1 <= Z.of_nat a)%Z by lia. nia.
  - assert (a = 0) by lia. subst a. simpl in *. lia.
Qed.

(** ** The insertion-ordered map *)

Section JsMapFacts.
Context {K V : Type} `{EqDec K}.
Implicit Types (m : list (K * V)) (k : K) (v : V).

Lemma get_In m k v : JsMap.get k m = Some v -> In (k, v) m.
Proof.
  induction m as [|[k' v'] m IH]; simpl; [discriminate|].
  destruct (eq_dec k k') as [->|]; intros E.
  - inversion E; subst. now left.
  - right. auto.
Qed.

Lemma get_None m k : JsMap.get k m = None <-> ~ In k (JsMap.keys m).
Proof.
  induction m as [|[k' v'] m IH]; simpl.
  - tauto.
  - destruct (eq_dec k k') as [->|n].
    + split; [discriminate | intros F; exfalso; apply F; now left].
    + rewrite IH. split; intros F; [intros [E|E]; congruence | tauto].
Qed.

Lemma has_true m k : JsMap.has k m = true <-> In k (JsMap.keys m).
Proof.
  unfold JsMap.has. destruct (JsMap.get k m) eqn:E.
  - split; [intros _ | reflexivity].
    apply get_In in E. apply (in_map fst) in E. exact E.
  - apply get_None in E. split; [discriminate | tauto].
Qed.

Lemma has_false m k : JsMap.has k m = false <-> ~ In k (JsMap.keys m).
Proof.
  rewrite <- has_true. destruct (JsMap.has k m); split; congruence.
Qed.

Lemma In_get m k v :
  NoDup (JsMap.keys m) -> In (k, v) m -> JsMap.get k m = Some v.
Proof.
  induction m as [|[k' v'] m IH]; simpl; [tauto|].
  intros ND [E|I].
  - inversion E; subst. destruct (eq_dec k k); congruence.
  - inversion ND; subst. destruct (eq_dec k k') as [->|]; [|auto].
    exfalso. apply H2. apply (in_map fst) in I. exact I.
Qed.

Lemma set_fresh m k v :
  JsMap.get k m = None -> JsMap.set k v m = m ++ [(k, v)].
Proof.
  induction m as [|[k' v'] m IH]; simpl; [reflexivity|].
  destruct (eq_dec k k'); [discriminate|]. intros E. now rewrite IH.
Qed.

Lemma get_set m k k' v :
  JsMap.get k' (JsMap.set k v m)
  = if eq_dec k' k then Some v else JsMap.get k' m.
Proof.
  induction m as [|[k0 v0] m IH]; simpl.
  - destruct (eq_dec k' k); reflexivity.
  - destruct (eq_dec k k0) as [->|n]; simpl.
    + destruct (eq_dec k' k0); reflexivity.
    + destruct (eq_dec k' k0) as [->|n'].
      * destruct (eq_dec k0 k); congruence.
      * apply IH.
Qed.

Lemma keys_set m k v :
  JsMap.keys (JsMap.set k v m)
  = if JsMap.has k m then JsMap.keys m else JsMap.keys m ++ [k].
Proof.
  unfold JsMap.has, JsMap.keys.
  induction m as [|[k0 v0] m IH]; simpl; [reflexivity|].
  destruct (eq_dec k k0) as [->|n]; simpl; [reflexivity|].
  rewrite IH. destruct (JsMap.get k m); reflexivity.
Qed.

Lemma NoDup_keys_set m k v :
  NoDup (JsMap.keys m) -> NoDup (JsMap.keys (JsMap.set k v m)).
Proof.
  intros ND. rewrite keys_set. destruct (JsMap.has k m) eqn:E; [exact ND|].
  apply has_false in E.
  apply NoDup_app; [exact ND | repeat constructor; simpl; tauto |].
  intros x Hx [<-|[]]. tauto.
Qed.

Lemma In_set m k v k' v' :
  In (k', v') (JsMap.set k v m) -> (k' = k /\ v' = v) \/ In (k', v') m.
Proof.
  induction m as [|[k0 v0] m IH]; simpl.
  - intros [E|[]]. inversion E; auto.
  - destruct (eq_dec k k0) as [->|n]; simpl.
    + intros [E|I]; [inversion E; auto | auto].
    + intros [E|I]; [auto|]. destruct (IH I); auto.
Qed.

Lemma set_not_nil m k v : JsMap.set k v m <> [].
Proof.
  destruct m as [|[k0 v0] m]; simpl; [discriminate|].
  destruct (eq_dec k k0); discriminate.
Qed.
End JsMapFacts.

(** ** Counting over the owner map *)

Section FairCounting.

Lemma isLoadBalanced_loop_spec (minP extra : nat) lists count :
  Fair.isLoadBalanced_loop minP extra lists count = true
  <-> Forall (fun n => minP <= n <= minP + 1) (map (@length _) lists)
      /\ count
         + length (filter (fun n => n =? minP + 1) (map (@length _) lists))
         = extra.
Proof.
  revert count. induction lists as [|l lists IH]; intros count; simpl.
  - rewrite Nat.eqb_eq. split.
    + intros <-. split; [constructor | lia].
    + intros [_ E]. lia.
  - destruct (Nat.ltb_spec (length l) minP) as [Hlt|Hge]; simpl.
    { split; [discriminate|]. intros [F _]. inversion F; subst. lia. }
    destruct (Nat.ltb_spec (minP + 1) (length l)) as [Hgt|Hle]; simpl.
    { split; [discriminate|]. intros [F _]. inversion F; subst. lia. }
    rewrite IH. destruct (Nat.eqb_spec (length l) (minP + 1)); simpl.
    + split; intros [F E]; (split; [|lia]).
      * constructor; [lia | exact F].
      * now inversion F.
    + split; intros [F E]; (split; [|lia]).
      * constructor; [lia | exact F].
      * now inversion F.
Qed.

Lemma isLoadBalanced_spec (minP extra : nat) opm :
  Fair._isLoadBalanced minP extra opm = true
  <-> balanced_spec minP extra (counts opm).
Proof.
  unfold Fair._isLoadBalanced, balanced_spec, counts.
  rewrite isLoadBalanced_loop_spec. simpl. tauto.
Qed.

Lemma sumOfPartitionsOwned_list_sum opm :
  Fair.sumOfPartitionsOwned opm = list_sum (counts opm).
Proof.
  unfold Fair.sumOfPartitionsOwned, counts.
  generalize (JsMap.values opm) as ls. intros ls.
  enough (G : forall a,
    fold_left (fun sum (l : list PartitionOwnership) => sum + length l) ls a
    = a + list_sum (map (@length _) ls)) by apply (G 0).
  induction ls as [|l ls IH]; intros a; simpl; [lia|].
  rewrite IH. lia.
Qed.

(** In a range of width one, the sum fixes the number of larger terms. *)
Lemma list_sum_two_levels (minP : nat) (held : list nat) :
  Forall (fun n => minP <= n <= minP + 1) held ->
  list_sum held
  = length held * minP + length (filter (fun n => n =? minP + 1) held).
Proof.
  induction 1 as [|n held Hn _ IH]; simpl; [reflexivity|].
  rewrite IH. destruct (Nat.eqb_spec n (minP + 1)); simpl; lia.
Qed.

(** A balanced owner map accounts for every candidate partition. *)
Lemma balanced_sum (P : nat) (held : list nat) :
  held <> [] ->
  balanced_spec (P / length held) (P mod length held) held ->
  list_sum held = P.
Proof.
  intros Hne [F E]. rewrite (list_sum_two_levels _ _ F), E.
  assert (length held <> 0) by (destruct held; simpl; congruence).
  rewrite (Nat.div_mod_eq P (length held)) at 3. lia.
Qed.

(** Conversely, counts within the two levels that add up to [P] are
    balanced. *)
Lemma two_levels_balanced (P : nat) (held : list nat) :
  held <> [] ->
  Forall (fun n => P / length held <= n <= P / length held + 1) held ->
  list_sum held = P ->
  balanced_spec (P / length held) (P mod length held) held.
Proof.
  intros Hne F S. split; [exact F|].
  assert (length held <> 0) by (destruct held; simpl; congruence).
  rewrite (list_sum_two_levels _ _ F) in S.
  pose proof (Nat.div_mod_eq P (length held)). lia.
Qed.

(** *** The scan of [_findPartitionToSteal] *)

Lemma steal_step_inv st entry :
  steal_inv st -> steal_inv (Fair.steal_step st entry).
Proof.
  intros I. unfold Fair.steal_step.
  destruct (num_gt _ (snd st)); [|exact I].
  intros n. simpl. apply num_gt_nat.
Qed.

Lemma steal_fold_spec opm st :
  steal_inv st ->
  let res := fst (fold_left Fair.steal_step opm st) in
  (res = fst st \/ exists o, In (o, res) opm)
  /\ length (fst st) <= length res
  /\ Forall (fun n => n <= length res) (counts opm).
Proof.
  revert st. induction opm as [|[o l] opm IH]; intros st I; simpl.
  - split; [now left|]. split; [lia | constructor].
  - specialize (IH _ (steal_step_inv st (o, l) I)).
    simpl in IH. destruct IH as (Hres & Hlen & Hall).
    assert (Hst : (Fair.steal_step st (o, l) = (l, inject_Z (Z.of_nat (length l)))
                   /\ length (fst st) < length l)
                  \/ (Fair.steal_step st (o, l) = st
                      /\ length l <= length (fst st))).
    { unfold Fair.steal_step. simpl. rewrite (I (length l)).
      destruct (Nat.ltb_spec (length (fst st)) (length l)); [left|right]; auto. }
    unfold counts in *. simpl.
    destruct Hst as [[E Hlt]|[E Hle]]; rewrite E in *; simpl in *.
    + split; [|split].
      * right. destruct Hres as [->|[o' Ho']]; eauto.
      * lia.
      * constructor; [lia | exact Hall].
    + split; [|split].
      * destruct Hres as [->|[o' Ho']]; eauto.
      * lia.
      * constructor; [lia | exact Hall].
Qed.

Lemma steal_inv_init : steal_inv ([], Number_MIN_VALUE).
Proof. intros n. simpl. apply num_gt_MIN_VALUE. Qed.

(** [maxList] is a longest list of the map, and one of its lists as soon
    as some list is not empty. *)
Lemma maxOwnershipList_spec opm :
  let maxList := Fair.maxOwnershipList opm in
  Forall (fun n => n <= length maxList) (counts opm)
  /\ (maxList = [] \/ exists o, In (o, maxList) opm).
Proof.
  destruct (steal_fold_spec opm _ steal_inv_init) as (Hres & _ & Hall).
  unfold Fair.maxOwnershipList. simpl in *. split; [exact Hall|].
  destruct Hres; auto.
Qed.
End FairCounting.

(** ** Grouping the active records by owner *)

Lemma owner_is_true o po : owner_is o po = true <-> ownerId po = o.
Proof. unfold owner_is. destruct (eq_dec (ownerId po) o); split; congruence. Qed.

Lemma owned_by_snoc o records po :
  owned_by o (records ++ [po])
  = owned_by o records ++ (if owner_is o po then [po] else []).
Proof. unfold owned_by. rewrite filter_app. reflexivity. Qed.

Lemma nonempty_snoc {A : Type} (l : list A) (x : A) :
  nonempty (l ++ [x]) = Some (l ++ [x]).
Proof. destruct l; reflexivity. Qed.

Lemma nonempty_default {A : Type} (l : list A) :
  match nonempty l with Some a => a | None => [] end = l.
Proof. destruct l; reflexivity. Qed.

Section Grouping.
Variable this : Fair.FairPartitionLoadBalancer.

Lemma group_step_get acc seen po :
  (forall o, JsMap.get o acc = nonempty (owned_by o seen)) ->
  forall o, JsMap.get o (Fair.group_step acc po)
            = nonempty (owned_by o (seen ++ [po])).
Proof.
  intros Hacc o. unfold Fair.group_step. rewrite get_set, owned_by_snoc.
  unfold owner_is.
  destruct (eq_dec o (ownerId po)) as [->|n].
  - destruct (eq_dec (ownerId po) (ownerId po)); [|congruence].
    rewrite Hacc, nonempty_default, nonempty_snoc. reflexivity.
  - destruct (eq_dec (ownerId po) o); [congruence|].
    rewrite app_nil_r. apply Hacc.
Qed.

Lemma group_fold_get records : forall acc seen,
  (forall o, JsMap.get o acc = nonempty (owned_by o seen)) ->
  forall o, JsMap.get o (fold_left Fair.group_step records acc)
            = nonempty (owned_by o (seen ++ records)).
Proof.
  induction records as [|po records IH]; intros acc seen Hacc o; simpl.
  - rewrite app_nil_r. apply Hacc.
  - rewrite (IH _ (seen ++ [po])).
    + now rewrite <- app_assoc.
    + now apply group_step_get.
Qed.

(** Each owner is mapped to the list of its records, in ledger order. *)
Lemma grouped_get records o :
  JsMap.get o (grouped records) = nonempty (owned_by o records).
Proof. apply (group_fold_get records [] []). reflexivity. Qed.

Lemma group_fold_NoDup records : forall acc,
  NoDup (JsMap.keys acc) ->
  NoDup (JsMap.keys (fold_left Fair.group_step records acc)).
Proof.
  induction records as [|po records IH]; intros acc ND; simpl; [exact ND|].
  apply IH. unfold Fair.group_step. now apply NoDup_keys_set.
Qed.

Lemma grouped_NoDup records : NoDup (JsMap.keys (grouped records)).
Proof. apply group_fold_NoDup. constructor. Qed.

Lemma group_step_sum acc po :
  list_sum (counts (Fair.group_step acc po)) = S (list_sum (counts acc)).
Proof.
  unfold Fair.group_step. generalize (ownerId po) as k. intros k.
  induction acc as [|[k0 v0] acc IH]; simpl; [reflexivity|].
  destruct (eq_dec k k0) as [->|n]; unfold counts in *; simpl.
  - rewrite length_app. simpl. lia.
  - rewrite IH. lia.
Qed.

Lemma group_fold_sum records : forall acc,
  list_sum (counts (fold_left Fair.group_step records acc))
  = list_sum (counts acc) + length records.
Proof.
  induction records as [|po records IH]; intros acc; simpl; [lia|].
  rewrite IH, group_step_sum. lia.
Qed.

Lemma grouped_In records o lst :
  In (o, lst) (grouped records) <-> lst = owned_by o records /\ lst <> [].
Proof.
  split.
  - intros I. apply (In_get _ _ _ (grouped_NoDup records)) in I.
    rewrite grouped_get in I. destruct (owned_by o records) eqn:E; simpl in I.
    + discriminate.
    + inversion I; subst. split; [reflexivity | discriminate].
  - intros [-> Hne]. apply get_In. rewrite grouped_get.
    destruct (owned_by o records); [congruence | reflexivity].
Qed.

(** *** The owner map with the caller added *)

Lemma buildOwnerPartitionMap_cases active :
  let g := grouped (JsMap.values active) in
  (JsMap.has (me this) g = true /\ Fair.buildOwnerPartitionMap this active = g)
  \/ (JsMap.has (me this) g = false
      /\ Fair.buildOwnerPartitionMap this active = g ++ [(me this, [])]).
Proof.
  unfold Fair.buildOwnerPartitionMap. fold (grouped (JsMap.values active)).
  fold (me this). simpl. destruct (JsMap.has (me this) _) eqn:E; [now left|right].
  split; [reflexivity|]. apply set_fresh.
  unfold JsMap.has in E. destruct (JsMap.get (me this) _); [discriminate|reflexivity].
Qed.

Lemma ownerMap_get_me active :
  JsMap.get (me this) (Fair.buildOwnerPartitionMap this active)
  = Some (owned_by (me this) (JsMap.values active)).
Proof.
  destruct (buildOwnerPartitionMap_cases active) as [[Hh ->]|[Hh ->]];
    unfold JsMap.has in Hh;
    destruct (JsMap.get (me this) (grouped (JsMap.values active))) as [a|] eqn:E;
    try discriminate.
  - rewrite grouped_get in E.
    destruct (owned_by (me this) (JsMap.values active)); simpl in E;
      [discriminate | now symmetry].
  - rewrite <- (set_fresh _ _ _ E), get_set.
    destruct (eq_dec (me this) (me this)); [|congruence].
    rewrite grouped_get in E.
    destruct (owned_by (me this) (JsMap.values active)); [reflexivity|discriminate].
Qed.

Lemma ownerMap_In active o lst :
  In (o, lst) (Fair.buildOwnerPartitionMap this active) ->
  lst = owned_by o (JsMap.values active) /\ (lst <> [] \/ o = (me this)).
Proof.
  destruct (buildOwnerPartitionMap_cases active) as [[Hh ->]|[Hh ->]].
  - intros I. apply grouped_In in I. tauto.
  - rewrite in_app_iff. intros [I|[I|[]]].
    + apply grouped_In in I. tauto.
    + inversion I; subst. split; [|now right].
      unfold JsMap.has in Hh. rewrite grouped_get in Hh.
      destruct (owned_by (me this) (JsMap.values active)); [reflexivity|discriminate].
Qed.

Lemma ownerMap_NoDup active :
  NoDup (JsMap.keys (Fair.buildOwnerPartitionMap this active)).
Proof.
  destruct (buildOwnerPartitionMap_cases active) as [[Hh ->]|[Hh ->]].
  - apply grouped_NoDup.
  - unfold JsMap.keys. rewrite map_app. simpl.
    apply NoDup_app; [apply grouped_NoDup | repeat constructor; simpl; tauto|].
    intros x Hx [<-|[]]. apply has_false in Hh. tauto.
Qed.

Lemma ownerMap_sum active :
  list_sum (counts (Fair.buildOwnerPartitionMap this active))
  = length active.
Proof.
  assert (G : list_sum (counts (grouped (JsMap.values active)))
              = length active).
  { unfold grouped. rewrite group_fold_sum. unfold JsMap.values.
    rewrite length_map. reflexivity. }
  destruct (buildOwnerPartitionMap_cases active) as [[Hh ->]|[Hh ->]];
    [exact G|].
  unfold counts, JsMap.values in *. rewrite !map_app, list_sum_app, G.
  simpl. lia.
Qed.

Lemma ownerMap_not_nil active :
  Fair.buildOwnerPartitionMap this active <> [].
Proof.
  intros E. pose proof (ownerMap_get_me active) as G. rewrite E in G.
  discriminate.
Qed.

Lemma ownerMap_size_pos active :
  0 < JsMap.size (Fair.buildOwnerPartitionMap this active).
Proof.
  pose proof (ownerMap_not_nil active).
  unfold JsMap.size. destruct (Fair.buildOwnerPartitionMap this active);
    [congruence | simpl; lia].
Qed.

(** The keys of the owner map are the owners seen in the active view,
    and the caller. *)
Lemma ownerMap_keys active o :
  In o (JsMap.keys (Fair.buildOwnerPartitionMap this active))
  <-> o = (me this) \/ In o (map ownerId (JsMap.values active)).
Proof.
  assert (G : In o (JsMap.keys (grouped (JsMap.values active)))
              <-> In o (map ownerId (JsMap.values active))).
  { rewrite <- has_true. unfold JsMap.has. rewrite grouped_get.
    unfold owned_by.
    destruct (filter (owner_is o) (JsMap.values active)) as [|po l] eqn:E;
      simpl.
    - split; [discriminate|]. intros I. apply in_map_iff in I.
      destruct I as (po & Ho & I).
      assert (F : In po (filter (owner_is o) (JsMap.values active))).
      { apply filter_In. split; [exact I|]. now apply owner_is_true. }
      rewrite E in F. destruct F.
    - split; [intros _ | reflexivity].
      assert (F : In po (filter (owner_is o) (JsMap.values active)))
        by (rewrite E; now left).
      apply filter_In in F. destruct F as [I Ho].
      apply owner_is_true in Ho. subst o. now apply in_map. }
  destruct (buildOwnerPartitionMap_cases active) as [[Hh ->]|[Hh ->]].
  - rewrite G. split; [tauto|]. intros [->|I]; [|exact I].
    apply G. now apply has_true.
  - unfold JsMap.keys in *. rewrite map_app, in_app_iff, G. simpl.
    split; [intros [I|[E|[]]]; auto | intros [E|I]; auto].
Qed.
End Grouping.

(** ** Pruning the ledger *)

Section Pruning.
Variable this : Fair.FairPartitionLoadBalancer.

Lemma stale_not_active now po :
  stale_spec this now po -> Fair.isActive this now po = false.
Proof.
  unfold stale_spec, Fair.isActive.
  destruct (lastModifiedTimeInMS po) as [t|]; [|reflexivity].
  intros [Ht|Ho].
  - destruct (Z.ltb_spec (now - t) (Fair._inactiveTimeLimitInMS this));
      [lia|]. now rewrite andb_false_r.
  - destruct (ownerId po) as [s|]; simpl.
    + subst s. simpl. now rewrite andb_false_r.
    + now rewrite andb_false_r.
Qed.

Lemma removeInactive_loop_reindex entries : forall c1 c2 i1 i2 acc,
  (forall j, c1 (i1 + j) = c2 (i2 + j)) ->
  Fair.removeInactive_loop this c1 i1 entries acc
  = Fair.removeInactive_loop this c2 i2 entries acc.
Proof.
  induction entries as [|[pid po] rest IH]; intros c1 c2 i1 i2 acc Hc;
    simpl; [reflexivity|].
  pose proof (Hc 0) as H0. rewrite !Nat.add_0_r in H0. rewrite H0.
  apply IH. intros j. specialize (Hc (S j)).
  now rewrite !Nat.add_succ_r in Hc.
Qed.

Lemma removeInactive_loop_drop before pid po after : forall clock i acc,
  Fair.isActive this (clock (i + length before)) po = false ->
  Fair.removeInactive_loop this clock i
    (before ++ (pid, po) :: after) acc
  = Fair.removeInactive_loop this
      (skip_reading (i + length before) clock) i (before ++ after) acc.
Proof.
  induction before as [|[pid0 po0] before IH]; intros clock i acc Hin; simpl.
  - simpl in Hin. rewrite Nat.add_0_r in *. rewrite Hin.
    apply removeInactive_loop_reindex. intros j. unfold skip_reading.
    destruct (Nat.ltb_spec (i + j) i); [lia|]. reflexivity.
  - simpl in Hin. rewrite Nat.add_succ_r in Hin.
    unfold skip_reading at 2.
    destruct (Nat.ltb_spec i (i + S (length before))); [|lia].
    rewrite (IH clock (S i)) by exact Hin.
    rewrite Nat.add_succ_r. reflexivity.
Qed.

Lemma removeInactive_loop_keys entries : forall clock i acc,
  NoDup (JsMap.keys acc ++ JsMap.keys entries) ->
  Fair.removeInactive_loop this clock i entries acc
  = acc ++ active_from this clock i entries.
Proof.
  induction entries as [|[pid po] rest IH]; intros clock i acc ND; simpl.
  - now rewrite app_nil_r.
  - simpl in ND.
    destruct (Fair.isActive this (clock i) po).
    + rewrite set_fresh.
      * rewrite IH; [now rewrite <- app_assoc|].
        unfold JsMap.keys in *. rewrite map_app, <- app_assoc. exact ND.
      * apply get_None. intros I. apply NoDup_remove_2 in ND.
        apply ND. apply in_or_app. now left.
    + apply IH. now apply NoDup_remove_1 in ND.
Qed.

(** On a ledger whose keys are distinct (a [Map]), pruning keeps the
    active entries in order. *)
Lemma removeInactive_active_from clock ledger :
  NoDup (JsMap.keys ledger) ->
  Fair._removeInactivePartitionOwnerships this clock ledger
  = active_from this clock 0 ledger.
Proof.
  intros ND. unfold Fair._removeInactivePartitionOwnerships.
  now rewrite removeInactive_loop_keys.
Qed.

Lemma active_from_In clock entries : forall i pid po,
  In (pid, po) (active_from this clock i entries) <->
  exists j, nth_error entries j = Some (pid, po)
            /\ Fair.isActive this (clock (i + j)) po = true.
Proof.
  induction entries as [|[pid0 po0] rest IH]; intros i pid po; simpl.
  - split; [tauto|]. intros ([|j] & E & _); discriminate.
  - assert (T : In (pid, po) (active_from this clock (S i) rest) <->
                exists j, nth_error ((pid0, po0) :: rest) (S j)
                          = Some (pid, po)
                          /\ Fair.isActive this (clock (i + S j)) po = true).
    { rewrite IH. simpl. split; intros (j & E & A); exists j;
        (split; [exact E|]); now rewrite Nat.add_succ_r in *. }
    destruct (Fair.isActive this (clock i) po0) eqn:A0; simpl.
    + rewrite T. split.
      * intros [E|(j & E)]; [|eauto].
        inversion E; subst. exists 0. rewrite Nat.add_0_r. auto.
      * intros ([|j] & E & A); [left; simpl in E; congruence | eauto].
    + rewrite T. split; [intros (j & E); eauto|].
      intros ([|j] & E & A); [|eauto].
      simpl in E. inversion E; subst. rewrite Nat.add_0_r in A. congruence.
Qed.

Lemma active_from_incl clock entries i :
  incl (active_from this clock i entries) entries.
Proof.
  intros [pid po] I. apply active_from_In in I.
  destruct I as (j & E & _). eapply nth_error_In; eauto.
Qed.

Lemma active_from_keys_NoDup clock entries : forall i,
  NoDup (JsMap.keys entries) ->
  NoDup (JsMap.keys (active_from this clock i entries)).
Proof.
  induction entries as [|[pid po] rest IH]; intros i ND; simpl;
    [constructor|].
  inversion ND; subst.
  destruct (Fair.isActive this (clock i) po); simpl; [|auto].
  constructor; [|auto]. intros I. apply H1.
  apply in_map_iff in I. destruct I as ([k p] & <- & I).
  apply active_from_incl in I. now apply (in_map fst) in I.
Qed.
End Pruning.

(** ** The active ownership view, in the words of the specification *)

Lemma balanced_spec_Permutation (minP extra : nat) (l l' : list nat) :
  Permutation l l' -> balanced_spec minP extra l -> balanced_spec minP extra l'.
Proof.
  intros Hp [F E]. split.
  - eapply Permutation_Forall; eauto.
  - rewrite <- E. clear F E.
    induction Hp; simpl; try congruence.
    + destruct (x =? minP + 1); simpl; congruence.
    + destruct (x =? minP + 1); destruct (y =? minP + 1); reflexivity.
Qed.

Section View.
Variable this : Fair.FairPartitionLoadBalancer.

Lemma ownerMap_keys_view active :
  Permutation (JsMap.keys (Fair.buildOwnerPartitionMap this active))
              (view_owners this active).
Proof.
  apply NoDup_Permutation.
  - apply ownerMap_NoDup.
  - apply NoDup_nodup.
  - intros o. rewrite ownerMap_keys. unfold view_owners.
    rewrite nodup_In. simpl. split; intros [E|I]; auto.
Qed.

(** The size of the owner map is the number [C] of owners of the view. *)
Lemma ownerMap_size_view active :
  JsMap.size (Fair.buildOwnerPartitionMap this active)
  = length (view_owners this active).
Proof.
  rewrite <- (Permutation_length (ownerMap_keys_view active)).
  unfold JsMap.size, JsMap.keys. now rewrite length_map.
Qed.

Lemma ownerMap_counts_held active :
  counts (Fair.buildOwnerPartitionMap this active)
  = map (held active) (JsMap.keys (Fair.buildOwnerPartitionMap this active)).
Proof.
  unfold counts, JsMap.values, JsMap.keys. rewrite !map_map.
  apply map_ext_in. intros [o lst] I. simpl.
  apply ownerMap_In in I. destruct I as [-> _]. reflexivity.
Qed.

Lemma ownerMap_counts_view active :
  Permutation (counts (Fair.buildOwnerPartitionMap this active))
              (map (held active) (view_owners this active)).
Proof.
  rewrite ownerMap_counts_held. apply Permutation_map.
  apply ownerMap_keys_view.
Qed.

(** [_isLoadBalanced], as [loadBalance] calls it, decides the balanced
    predicate of the specification. *)
Lemma isLoadBalanced_view active (P : nat) :
  let opm := Fair.buildOwnerPartitionMap this active in
  Fair._isLoadBalanced (P / JsMap.size opm) (P mod JsMap.size opm) opm = true
  <-> view_balanced this active P.
Proof.
  simpl. rewrite isLoadBalanced_spec, ownerMap_size_view.
  unfold view_balanced. simpl. split; apply balanced_spec_Permutation.
  - apply ownerMap_counts_view.
  - apply Permutation_sym, ownerMap_counts_view.
Qed.

Lemma shouldOwnMorePartitions_eval (minP : nat) (parts : list string) active :
  Fair._shouldOwnMorePartitions this minP parts
    (Fair.buildOwnerPartitionMap this active)
  = Returns ((held active (me this) <? minP)
             || ((length active <? length parts)
                 && (held active (me this) <? minP + 1))).
Proof.
  unfold Fair._shouldOwnMorePartitions.
  change (Some (Fair._ownerId this)) with (me this).
  rewrite ownerMap_get_me, sumOfPartitionsOwned_list_sum, ownerMap_sum.
  reflexivity.
Qed.

(** With a non-empty active view some owner holds a partition, so the
    longest list is not empty. *)
Lemma maxOwnershipList_not_nil active :
  active <> [] ->
  Fair.maxOwnershipList (Fair.buildOwnerPartitionMap this active) <> [].
Proof.
  intros Hne E.
  destruct (maxOwnershipList_spec (Fair.buildOwnerPartitionMap this active))
    as [Hall _]. simpl in Hall. rewrite E in Hall. simpl in Hall.
  assert (S0 : list_sum (counts (Fair.buildOwnerPartitionMap this active)) = 0).
  { induction Hall as [|n l Hn _ IH]; simpl; [reflexivity|]. lia. }
  rewrite ownerMap_sum in S0. destruct active; simpl in S0; congruence.
Qed.

Lemma findPartitionToSteal_returns (r : Q) active :
  (0 <= r)%Q -> (r < 1)%Q -> active <> [] ->
  exists po,
    Fair._findPartitionToSteal r (Fair.buildOwnerPartitionMap this active)
    = Returns (partitionId po)
    /\ In po (Fair.maxOwnershipList (Fair.buildOwnerPartitionMap this active)).
Proof.
  intros H0 H1 Hne. unfold Fair._findPartitionToSteal.
  destruct (array_at_random _ _ r H0 H1 (maxOwnershipList_not_nil active Hne))
    as (po & E & I).
  rewrite E. eauto.
Qed.

Lemma size_zero (active : Ledger) :
  (JsMap.size active =? 0) = true <-> active = [].
Proof.
  unfold JsMap.size. destruct active; simpl; split; congruence.
Qed.

(** [loadBalance] returns for every input, and returns at most one
    partition id. *)
Lemma loadBalance_total (clock : nat -> Z) (r : Q) (ledger : Ledger)
    (parts : list string) :
  (0 <= r)%Q -> (r < 1)%Q ->
  exists claims,
    Fair.loadBalance this clock r ledger parts = Returns claims
    /\ length claims <= 1
    /\ (Fair._removeInactivePartitionOwnerships this clock ledger = []
        -> length claims = 1).
Proof.
  intros H0 H1. unfold Fair.loadBalance.
  set (active := Fair._removeInactivePartitionOwnerships this clock ledger).
  destruct (JsMap.size active =? 0) eqn:Esz.
  { eexists. split; [reflexivity|]. simpl. auto. }
  assert (Hne : active <> []).
  { intros E. apply size_zero in E. congruence. }
  destruct (Fair._isLoadBalanced _ _ _).
  { exists []. simpl. split; [reflexivity|]. split; [lia | congruence]. }
  rewrite shouldOwnMorePartitions_eval.
  destruct (_ || _).
  2:{ exists []. simpl. split; [reflexivity|]. split; [lia | congruence]. }
  destruct (length (Fair.unOwnedPartitionIds active parts) =? 0).
  - destruct (findPartitionToSteal_returns r active H0 H1 Hne)
      as (po & -> & _).
    eexists. split; [reflexivity|]. simpl. split; [lia | congruence].
  - eexists. split; [reflexivity|]. simpl. split; [lia | congruence].
Qed.
End View.

(** ** Results on [FairPartitionLoadBalancer.loadBalance] *)

Section LoadBalance.
Variable this : Fair.FairPartitionLoadBalancer.

Lemma loadBalance_bootstrap clock r ledger parts :
  Fair._removeInactivePartitionOwnerships this clock ledger = [] ->
  Fair.loadBalance this clock r ledger parts
  = Returns [array_at parts (random_index r (length parts))].
Proof. intros E. unfold Fair.loadBalance. rewrite E. reflexivity. Qed.

(** A balanced, non-empty active view: nothing is claimed. *)
Lemma loadBalance_balanced clock r ledger parts :
  let active := Fair._removeInactivePartitionOwnerships this clock ledger in
  active <> [] ->
  view_balanced this active (length parts) ->
  Fair.loadBalance this clock r ledger parts = Returns [].
Proof.
  simpl. intros Hne Hb. unfold Fair.loadBalance.
  destruct (JsMap.size _ =? 0) eqn:Esz.
  { apply size_zero in Esz. congruence. }
  apply isLoadBalanced_view in Hb. simpl in Hb. now rewrite Hb.
Qed.

(** With at least one candidate, a balanced view is never empty. *)
Lemma view_balanced_not_bootstrap active (P : nat) :
  0 < P -> view_balanced this active P -> active <> [].
Proof.
  intros HP Hb ->. unfold view_balanced in Hb.
  change (view_owners this []) with [me this] in Hb.
  cbn [length map] in Hb. rewrite Nat.div_1_r in Hb.
  destruct Hb as [F _]. inversion F as [|n l Hn Hl]; subst.
  change (held [] (me this)) with 0 in Hn. lia.
Qed.

Lemma loadBalance_balanced_candidates clock r ledger parts :
  parts <> [] ->
  view_balanced this
    (Fair._removeInactivePartitionOwnerships this clock ledger)
    (length parts) ->
  Fair.loadBalance this clock r ledger parts = Returns [].
Proof.
  intros Hp Hb. apply loadBalance_balanced; [|exact Hb].
  apply (view_balanced_not_bootstrap _ (length parts)); [|exact Hb].
  destruct parts; simpl; [congruence | lia].
Qed.

(** Outside the bootstrap path, no candidate means no claim. *)
Lemma loadBalance_no_candidates_active clock r ledger :
  Fair._removeInactivePartitionOwnerships this clock ledger <> [] ->
  Fair.loadBalance this clock r ledger [] = Returns [].
Proof.
  intros Hne. unfold Fair.loadBalance.
  destruct (JsMap.size _ =? 0) eqn:Esz.
  { apply size_zero in Esz. congruence. }
  destruct (Fair._isLoadBalanced _ _ _); [reflexivity|].
  rewrite shouldOwnMorePartitions_eval. simpl.
  pose proof (ownerMap_size_pos this
    (Fair._removeInactivePartitionOwnerships this clock ledger)) as Hs.
  rewrite Nat.Div0.div_0_l. simpl. reflexivity.
Qed.
End LoadBalance.

(** * The claims *)

(** C2. For every ledger, candidate list and clock, [loadBalance] returns,
    and returns a list of at most one partition id; in the bootstrap path
    (empty active ownership view) the list has exactly one element. *)
Theorem loadBalance_single_claim
    (this : Fair.FairPartitionLoadBalancer) (clock : nat -> Z) (r : Q)
    (ledger : Ledger) (parts : list string) :
  (0 <= r)%Q -> (r < 1)%Q ->
  exists claims,
    Fair.loadBalance this clock r ledger parts = Returns claims
    /\ length claims <= 1
    /\ (Fair._removeInactivePartitionOwnerships this clock ledger = []
        -> length claims = 1).
Proof. apply loadBalance_total. Qed.

Lemma loadBalance_single_claim_witness :
  exists claims,
    Fair.loadBalance (Fair.constructor "A" 30000) (fun _ => 100000%Z) (1 # 2)
      [("0", {| partitionId := "0"; ownerId := Some "B";
                lastModifiedTimeInMS := Some 99000%Z |})]
      ["0"; "1"; "2"; "3"] = Returns claims
    /\ length claims <= 1
    /\ (Fair._removeInactivePartitionOwnerships (Fair.constructor "A" 30000)
          (fun _ => 100000%Z)
          [("0", {| partitionId := "0"; ownerId := Some "B";
                    lastModifiedTimeInMS := Some 99000%Z |})] = []
        -> length claims = 1).
Proof.
  apply loadBalance_single_claim.
  - unfold Qle; simpl; lia.
  - unfold Qlt; simpl; lia.
Defined.

(** C5. In a non-bootstrap call where the caller actively holds at least
    [floor(P/C) + 1] partitions, [loadBalance] returns the empty list. *)
Theorem loadBalance_no_over_claiming
    (this : Fair.FairPartitionLoadBalancer) (clock : nat -> Z) (r : Q)
    (ledger : Ledger) (parts : list string) :
  let active := Fair._removeInactivePartitionOwnerships this clock ledger in
  let C := length (view_owners this active) in
  active <> [] ->
  length parts / C + 1 <= held active (me this) ->
  Fair.loadBalance this clock r ledger parts = Returns [].
Proof.
  simpl. intros Hne Hheld. unfold Fair.loadBalance.
  destruct (JsMap.size _ =? 0) eqn:Esz.
  { apply size_zero in Esz. congruence. }
  destruct (Fair._isLoadBalanced _ _ _); [reflexivity|].
  rewrite shouldOwnMorePartitions_eval, ownerMap_size_view.
  destruct (Nat.ltb_spec
    (held (Fair._removeInactivePartitionOwnerships this clock ledger) (me this))
    (length parts /
     length (view_owners this
               (Fair._removeInactivePartitionOwnerships this clock ledger))));
    [lia|].
  destruct (Nat.ltb_spec
    (held (Fair._removeInactivePartitionOwnerships this clock ledger) (me this))
    (length parts /
     length (view_owners this
               (Fair._removeInactivePartitionOwnerships this clock ledger)) + 1));
    [lia|].
  simpl. now rewrite andb_false_r.
Qed.

Lemma loadBalance_no_over_claiming_witness :
  Fair.loadBalance (Fair.constructor "A" 30000) (fun _ => 100000%Z) (1 # 2)
    [("0", {| partitionId := "0"; ownerId := Some "A";
              lastModifiedTimeInMS := Some 99000%Z |});
     ("1", {| partitionId := "1"; ownerId := Some "A";
              lastModifiedTimeInMS := Some 99000%Z |});
     ("2", {| partitionId := "2"; ownerId := Some "B";
              lastModifiedTimeInMS := Some 99000%Z |});
     ("3", {| partitionId := "3"; ownerId := Some "C";
              lastModifiedTimeInMS := Some 99000%Z |})]
    ["0"; "1"; "2"; "3"; "4"] = Returns [].
Proof.
  apply loadBalance_no_over_claiming.
  - vm_compute. discriminate.
  - vm_compute. lia.
Defined.

(** C6. With no candidate partition and an empty active ownership view the
    code takes the bootstrap path and returns the one-element list
    [[undefined]], not the empty list. *)
Theorem loadBalance_no_candidates_bootstrap
    (this : Fair.FairPartitionLoadBalancer) (clock : nat -> Z) (r : Q) :
  Fair.loadBalance this clock r [] [] = Returns [None].
Proof.
  unfold Fair.loadBalance. simpl. now rewrite array_at_nil.
Qed.

(** C1. The view of an empty ledger is balanced for zero candidates (the
    caller alone, holding nothing), yet the call returns [[undefined]]
    through the bootstrap path instead of the empty list. *)
Theorem loadBalance_balanced_bootstrap
    (this : Fair.FairPartitionLoadBalancer) (clock : nat -> Z) (r : Q) :
  view_balanced this (Fair._removeInactivePartitionOwnerships this clock []) 0
  /\ Fair.loadBalance this clock r [] [] = Returns [None].
Proof.
  split.
  - unfold view_balanced.
    change (Fair._removeInactivePartitionOwnerships this clock [])
      with (@nil (string * PartitionOwnership)).
    change (view_owners this []) with [me this].
    change (held [] (me this)) with 0. simpl.
    split; [repeat constructor; lia | reflexivity].
  - unfold Fair.loadBalance. simpl. now rewrite array_at_nil.
Qed.

(** C9. With no candidate partition, the bootstrap path reads
    [partitionsToAdd[0]] on an empty array: the random index is not within
    [candidatePartitions], and the read yields [undefined]. *)
Theorem loadBalance_bootstrap_index_out_of_range
    (this : Fair.FairPartitionLoadBalancer) (clock : nat -> Z) (r : Q) :
  random_index r (@length string []) = 0%Z
  /\ ~ (random_index r (@length string []) < Z.of_nat (@length string []))%Z
  /\ Fair.loadBalance this clock r [] []
     = Returns [array_at (@nil string) 0%Z]
  /\ array_at (@nil string) 0%Z = None.
Proof.
  assert (E : random_index r (@length string []) = 0%Z)
    by apply random_index_zero.
  split; [exact E|]. split; [rewrite E; simpl; lia|].
  split; [|reflexivity].
  unfold Fair.loadBalance. simpl. now rewrite array_at_nil.
Qed.

(** C4. A ledger entry that is stale (heartbeat missing or at least
    [inactivityThreshold] old at the clock reading taken for it, or owner
    missing or empty) is treated as an absent entry: with the same random
    draw [loadBalance] gives the same result as on the ledger without it,
    and in a ledger with distinct keys its partition is not in the active
    view, so it is among the unowned candidates. *)
Theorem loadBalance_stale_entry_ignored
    (this : Fair.FairPartitionLoadBalancer) (clock : nat -> Z) (r : Q)
    (before after : Ledger) (pid : string) (po : PartitionOwnership)
    (parts : list string) :
  stale_spec this (clock (length before)) po ->
  Fair.loadBalance this clock r (before ++ (pid, po) :: after) parts
  = Fair.loadBalance this (skip_reading (length before) clock) r
      (before ++ after) parts
  /\ ((forall i j, clock i = clock j) ->
      Fair.loadBalance this clock r (before ++ (pid, po) :: after) parts
      = Fair.loadBalance this clock r (before ++ after) parts)
  /\ (NoDup (JsMap.keys (before ++ (pid, po) :: after)) ->
      JsMap.has pid
        (Fair._removeInactivePartitionOwnerships this clock
           (before ++ (pid, po) :: after)) = false
      /\ (In pid parts ->
          In pid (Fair.unOwnedPartitionIds
                    (Fair._removeInactivePartitionOwnerships this clock
                       (before ++ (pid, po) :: after)) parts))).
Proof.
  intros Hst. apply stale_not_active in Hst.
  assert (Ha : Fair._removeInactivePartitionOwnerships this clock
                 (before ++ (pid, po) :: after)
               = Fair._removeInactivePartitionOwnerships this
                   (skip_reading (length before) clock) (before ++ after)).
  { unfold Fair._removeInactivePartitionOwnerships.
    apply (removeInactive_loop_drop this before pid po after clock 0 []).
    exact Hst. }
  split; [unfold Fair.loadBalance; now rewrite Ha|].
  split.
  - intros Hc. unfold Fair.loadBalance. rewrite Ha.
    replace (Fair._removeInactivePartitionOwnerships this
               (skip_reading (length before) clock) (before ++ after))
      with (Fair._removeInactivePartitionOwnerships this clock
              (before ++ after)); [reflexivity|].
    apply removeInactive_loop_reindex. intros j. unfold skip_reading.
    destruct (0 + j <? length before); auto.
  - intros ND.
    assert (Hh : JsMap.has pid
               (Fair._removeInactivePartitionOwnerships this clock
                  (before ++ (pid, po) :: after)) = false).
    { apply has_false. rewrite removeInactive_active_from by exact ND.
      intros I. apply in_map_iff in I. destruct I as ([k po'] & Ek & I).
      simpl in Ek. subst k. apply active_from_In in I.
      destruct I as (j & Ej & Aj). simpl in Aj.
      assert (Hj : j = length before).
      { unfold JsMap.keys in ND. rewrite NoDup_nth_error in ND.
        apply ND.
        - apply nth_error_Some. rewrite nth_error_map, Ej. discriminate.
        - rewrite !nth_error_map, Ej, nth_error_app2 by lia.
          now rewrite Nat.sub_diag. }
      subst j. rewrite nth_error_app2, Nat.sub_diag in Ej by lia.
      simpl in Ej. inversion Ej; subst. congruence. }
    split; [exact Hh|]. intros Ip. unfold Fair.unOwnedPartitionIds.
    apply filter_In. split; [exact Ip|]. now rewrite Hh.
Qed.

Lemma loadBalance_stale_entry_ignored_witness :
  Fair.loadBalance (Fair.constructor "A" 30000) (fun _ => 100000%Z) (1 # 2)
    ([("0", {| partitionId := "0"; ownerId := Some "B";
               lastModifiedTimeInMS := Some 99000%Z |})]
     ++ ("1", {| partitionId := "1"; ownerId := Some "X";
                 lastModifiedTimeInMS := Some 40000%Z |}) :: [])
    ["0"; "1"]
  = Fair.loadBalance (Fair.constructor "A" 30000) (fun _ => 100000%Z) (1 # 2)
      ([("0", {| partitionId := "0"; ownerId := Some "B";
                 lastModifiedTimeInMS := Some 99000%Z |})] ++ [])
      ["0"; "1"].
Proof.
  refine (proj1 (proj2 (loadBalance_stale_entry_ignored
    (Fair.constructor "A" 30000) (fun _ => 100000%Z) (1 # 2)
    [("0", {| partitionId := "0"; ownerId := Some "B";
              lastModifiedTimeInMS := Some 99000%Z |})] []
    "1" {| partitionId := "1"; ownerId := Some "X";
           lastModifiedTimeInMS := Some 40000%Z |}
    ["0"; "1"] _)) _).
  - left. simpl. lia.
  - reflexivity.
Defined.

(** ** Results on [GreedyPartitionLoadBalancer.loadBalance] *)

Lemma Set_has_new_Set (w : list string) (p : string) :
  Greedy.Set_has (Greedy.new_Set w) p = existsb (String.eqb p) w.
Proof.
  unfold Greedy.Set_has, Greedy.new_Set.
  destruct (in_dec string_dec p (nodup string_dec w)) as [I|N];
    destruct (existsb (String.eqb p) w) eqn:E; try reflexivity.
  - rewrite nodup_In in I.
    assert (X : existsb (String.eqb p) w = true).
    { apply existsb_exists. exists p. split; [exact I | apply String.eqb_refl]. }
    congruence.
  - exfalso. apply N. rewrite nodup_In. apply existsb_exists in E.
    destruct E as (x & I & Ex). apply String.eqb_eq in Ex. now subst x.
Qed.

Lemma has_existsb (ledger : Ledger) (p : string) :
  JsMap.has p ledger = existsb (fun e => String.eqb p (fst e)) ledger.
Proof.
  destruct (existsb (fun e => String.eqb p (fst e)) ledger) eqn:E.
  - apply has_true. apply existsb_exists in E. destruct E as (e & I & Ee).
    apply String.eqb_eq in Ee. subst p. now apply in_map.
  - apply has_false. intros I. apply in_map_iff in I.
    destruct I as (e & <- & I).
    assert (X : existsb (fun e0 => String.eqb (fst e) (fst e0)) ledger = true).
    { apply existsb_exists. exists e. split; [exact I | apply String.eqb_refl]. }
    congruence.
Qed.

Lemma filter_filter_andb {A : Type} (f g : A -> bool) (l : list A) :
  filter g (filter f l) = filter (fun x => f x && g x) l.
Proof.
  induction l as [|x l IH]; simpl; [reflexivity|].
  destruct (f x); simpl; [|exact IH].
  destruct (g x); now rewrite IH.
Qed.

(** C8. [GreedyPartitionLoadBalancer.loadBalance] returns exactly the
    candidates that are watched and are not keys of the ledger, in candidate
    order and without a limit of one; watching ["0","2"], candidates
    ["0","1","2","3"] give ["0","2"] on an empty ledger and ["2"] on a
    ledger that contains "0". *)
Theorem greedy_loadBalance_spec :
  (forall (watched : option (list string)) (ledger : Ledger)
          (parts : list string),
     Greedy.loadBalance (Greedy.constructor watched) ledger parts
     = greedy_claims watched ledger parts)
  /\ Greedy.loadBalance (Greedy.constructor (Some ["0"; "2"])) []
       ["0"; "1"; "2"; "3"] = ["0"; "2"]
  /\ (forall po : PartitionOwnership,
        Greedy.loadBalance (Greedy.constructor (Some ["0"; "2"]))
          [("0", po)] ["0"; "1"; "2"; "3"] = ["2"]).
Proof.
  split; [|split; [reflexivity | intros po; reflexivity]].
  intros watched ledger parts. unfold Greedy.loadBalance, greedy_claims.
  destruct watched as [w|]; simpl.
  - rewrite filter_filter_andb. apply filter_ext. intros p.
    now rewrite Set_has_new_Set, has_existsb.
  - apply filter_ext. intros p. now rewrite has_existsb.
Qed.

(** ** Self-registration and stealing *)

Lemma filter_nil_iff {A : Type} (f : A -> bool) (l : list A) :
  filter f l = [] <-> forall x, In x l -> f x = false.
Proof.
  induction l as [|x l IH]; simpl; [tauto|].
  destruct (f x) eqn:E.
  - split; [discriminate|]. intros Hx. specialize (Hx x (or_introl eq_refl)).
    congruence.
  - rewrite IH. split; [intros Hx y [<-|I]; auto | auto].
Qed.

Lemma nodup_constant {A : Type} (dec : forall x y : A, {x = y} + {x <> y})
    (a : A) (l : list A) :
  l <> [] -> (forall x, In x l -> x = a) -> nodup dec l = [a].
Proof.
  induction l as [|x l IH]; intros Hne Hall; [congruence|]. simpl.
  assert (x = a) by (apply Hall; now left). subst x.
  destruct (in_dec dec a l) as [I|N].
  - apply IH; [destruct l; [destruct I | discriminate]|].
    intros y Hy. apply Hall. now right.
  - destruct l as [|y l]; [reflexivity|]. exfalso. apply N. left.
    apply Hall. right. now left.
Qed.

Lemma list_sum_bound (M : nat) (l : list nat) :
  Forall (fun n => n <= M) l -> list_sum l <= length l * M.
Proof. induction 1; simpl; lia. Qed.

Lemma unOwned_nil_incl (active : Ledger) (parts : list string) :
  Fair.unOwnedPartitionIds active parts = []
  <-> incl parts (JsMap.keys active).
Proof.
  unfold Fair.unOwnedPartitionIds. rewrite filter_nil_iff. unfold incl.
  split; intros Hx p Ip; specialize (Hx p Ip).
  - apply has_true. now destruct (JsMap.has p active).
  - apply has_true in Hx. now rewrite Hx.
Qed.

Section Steal.
Variable this : Fair.FairPartitionLoadBalancer.

(** The record whose partition is stolen is a record of the active view
    held by the owner of the longest list. *)
Lemma findPartitionToSteal_owner (r : Q) active :
  (0 <= r)%Q -> (r < 1)%Q -> active <> [] ->
  exists po,
    Fair._findPartitionToSteal r (Fair.buildOwnerPartitionMap this active)
    = Returns (partitionId po)
    /\ In po (JsMap.values active)
    /\ Fair.maxOwnershipList (Fair.buildOwnerPartitionMap this active)
       = owned_by (ownerId po) (JsMap.values active).
Proof.
  intros H0 H1 Hne.
  destruct (findPartitionToSteal_returns this r active H0 H1 Hne)
    as (po & E & I).
  exists po. split; [exact E|].
  destruct (maxOwnershipList_spec (Fair.buildOwnerPartitionMap this active))
    as [_ [Hnil|(o & Ho)]].
  - rewrite Hnil in I. destruct I.
  - apply ownerMap_In in Ho. destruct Ho as [Hm _].
    rewrite Hm in I. unfold owned_by in I. apply filter_In in I.
    destruct I as [I Ho]. apply owner_is_true in Ho. subst o. auto.
Qed.

Lemma maxOwnershipList_covers active (parts : list string) :
  length parts <= length active ->
  length parts
  <= JsMap.size (Fair.buildOwnerPartitionMap this active)
     * length (Fair.maxOwnershipList (Fair.buildOwnerPartitionMap this active)).
Proof.
  intros Hle.
  destruct (maxOwnershipList_spec (Fair.buildOwnerPartitionMap this active))
    as [Hall _]. simpl in Hall. apply list_sum_bound in Hall.
  rewrite ownerMap_sum in Hall. unfold counts, JsMap.values in Hall.
  rewrite !length_map in Hall. unfold JsMap.size. lia.
Qed.

Lemma wf_active_In clock ledger po :
  wf_ledger ledger ->
  In po (JsMap.values
           (Fair._removeInactivePartitionOwnerships this clock ledger)) ->
  In (partitionId po, po)
     (Fair._removeInactivePartitionOwnerships this clock ledger).
Proof.
  intros [ND Hk] I. apply in_map_iff in I. destruct I as ([k p] & E & I).
  simpl in E. subst p.
  assert (I' := I). rewrite removeInactive_active_from in I' by exact ND.
  apply active_from_incl in I'. rewrite Forall_forall in Hk.
  specialize (Hk _ I'). simpl in Hk. now rewrite Hk.
Qed.

Lemma active_keys_NoDup clock ledger :
  NoDup (JsMap.keys ledger) ->
  NoDup (JsMap.keys
           (Fair._removeInactivePartitionOwnerships this clock ledger)).
Proof.
  intros ND. rewrite removeInactive_active_from by exact ND.
  now apply active_from_keys_NoDup.
Qed.
End Steal.

(** C10, as stated, fails: reaching the steal branch does not by itself keep
    the caller from being offered its own partition.  With the well-formed
    ledger {"0": A, "1": B} and the candidate list ["0","0","1","1"], which
    names each partition twice, caller "A" sees [P = 4], [C = 2], holds
    [1 < 2], finds no candidate unowned and reaches the steal branch; the
    first longest list is its own, and it is returned its own partition
    "0". *)
Lemma steal_branch_can_return_own_partition :
  ~ (forall (this : Fair.FairPartitionLoadBalancer) (clock : nat -> Z)
            (r : Q) (ledger : Ledger) (parts : list string),
       (0 <= r)%Q -> (r < 1)%Q ->
       wf_ledger ledger ->
       steal_branch this
         (Fair._removeInactivePartitionOwnerships this clock ledger) parts ->
       exists po,
         Fair.loadBalance this clock r ledger parts
         = Returns [Some (partitionId po)]
         /\ In po (JsMap.values
                     (Fair._removeInactivePartitionOwnerships this clock
                        ledger))
         /\ ownerId po <> me this).
Proof.
  intros H.
  destruct (H (Fair.constructor "A" 30000) (fun _ => 100000%Z) (1 # 2)
              [("0", {| partitionId := "0"; ownerId := Some "A";
                        lastModifiedTimeInMS := Some 99000%Z |});
               ("1", {| partitionId := "1"; ownerId := Some "B";
                        lastModifiedTimeInMS := Some 99000%Z |})]
              ["0"; "0"; "1"; "1"]) as (po & E & Ipo & Ho).
  - unfold Qle; simpl; lia.
  - unfold Qlt; simpl; lia.
  - split.
    + repeat constructor; simpl; intuition discriminate.
    + repeat constructor.
  - repeat split; vm_compute; congruence.
  - vm_compute in E. inversion E as [Ep].
    vm_compute in Ipo. destruct Ipo as [<-|[<-|[]]].
    + apply Ho. reflexivity.
    + simpl in Ep. discriminate.
Qed.

(** C10, amended.  When [loadBalance] reaches the steal branch and the
    candidate ids are pairwise distinct, it returns a single partition id,
    that of an active record owned by an owner other than the caller (in a
    well-formed ledger the record is filed under that id): the caller
    holds strictly fewer than [floor(P/C)] partitions and the longest list,
    from which the partition is taken, has at least [ceil(P/C)]. *)
Theorem loadBalance_steals_from_other
    (this : Fair.FairPartitionLoadBalancer) (clock : nat -> Z) (r : Q)
    (ledger : Ledger) (parts : list string) :
  let active := Fair._removeInactivePartitionOwnerships this clock ledger in
  let opm := Fair.buildOwnerPartitionMap this active in
  let C := length (view_owners this active) in
  (0 <= r)%Q -> (r < 1)%Q ->
  NoDup parts ->
  steal_branch this active parts ->
  exists po,
    Fair.loadBalance this clock r ledger parts
    = Returns [Some (partitionId po)]
    /\ In po (JsMap.values active)
    /\ ownerId po <> me this
    /\ (wf_ledger ledger -> In (partitionId po, po) active)
    /\ In po (Fair.maxOwnershipList opm)
    /\ held active (me this) < length parts / C
    /\ ceil_div (length parts) C <= length (Fair.maxOwnershipList opm).
Proof.
  intros active opm C H0 H1 NDp (Hne & Hnb & Hmore & Hun).
  fold opm in Hnb, Hmore.
  assert (HC : JsMap.size opm = C) by apply ownerMap_size_view.
  assert (HCpos : 0 < C) by (rewrite <- HC; apply ownerMap_size_pos).
  rewrite HC in Hnb, Hmore.
  (* every candidate is a key of the active view *)
  assert (Hle : length parts <= length active).
  { apply unOwned_nil_incl in Hun.
    apply (NoDup_incl_length NDp) in Hun.
    unfold JsMap.keys in Hun. now rewrite length_map in Hun. }
  (* so the caller is below the minimum *)
  assert (Hmine : held active (me this) < length parts / C).
  { unfold opm in Hmore. rewrite shouldOwnMorePartitions_eval in Hmore.
    inversion Hmore as [Hb]. apply orb_true_iff in Hb.
    destruct Hb as [Hb|Hb]; [now apply Nat.ltb_lt in Hb|].
    apply andb_true_iff in Hb. destruct Hb as [Hb _].
    apply Nat.ltb_lt in Hb. lia. }
  pose proof (maxOwnershipList_covers this active parts Hle) as Hcov.
  fold opm in Hcov. rewrite HC in Hcov.
  assert (Hceil : ceil_div (length parts) C
                  <= length (Fair.maxOwnershipList opm)).
  { unfold ceil_div. apply Nat.lt_succ_r.
    apply Nat.Div0.div_lt_upper_bound. lia. }
  assert (Hfloor : length parts / C <= length (Fair.maxOwnershipList opm)).
  { transitivity (ceil_div (length parts) C); [|exact Hceil].
    unfold ceil_div. apply Nat.Div0.div_le_mono. lia. }
  destruct (findPartitionToSteal_owner this r active H0 H1 Hne)
    as (po & Est & Ipo & Emax).
  fold opm in Est, Emax.
  exists po. repeat apply conj.
  - unfold Fair.loadBalance. fold active.
    destruct (JsMap.size active =? 0) eqn:Esz.
    { apply size_zero in Esz. congruence. }
    fold opm. rewrite HC, Hnb, Hmore.
    fold (Fair.unOwnedPartitionIds active parts). rewrite Hun. simpl.
    now rewrite Est.
  - exact Ipo.
  - intros Eo. rewrite Eo in Emax. unfold held in Hmine.
    rewrite <- Emax in Hmine. lia.
  - intros Hwf. now apply wf_active_In.
  - rewrite Emax. unfold owned_by. apply filter_In.
    split; [exact Ipo | now apply owner_is_true].
  - exact Hmine.
  - exact Hceil.
Qed.

Lemma loadBalance_steals_from_other_witness :
  exists po,
    Fair.loadBalance (Fair.constructor "B" 30000) (fun _ => 100000%Z) (3 # 4)
      [("0", {| partitionId := "0"; ownerId := Some "A";
                lastModifiedTimeInMS := Some 99000%Z |});
       ("1", {| partitionId := "1"; ownerId := Some "A";
                lastModifiedTimeInMS := Some 99000%Z |});
       ("2", {| partitionId := "2"; ownerId := Some "A";
                lastModifiedTimeInMS := Some 99000%Z |})]
      ["0"; "1"; "2"]
    = Returns [Some (partitionId po)]
    /\ ownerId po <> Some "B".
Proof.
  destruct (loadBalance_steals_from_other
    (Fair.constructor "B" 30000) (fun _ => 100000%Z) (3 # 4)
    [("0", {| partitionId := "0"; ownerId := Some "A";
              lastModifiedTimeInMS := Some 99000%Z |});
     ("1", {| partitionId := "1"; ownerId := Some "A";
              lastModifiedTimeInMS := Some 99000%Z |});
     ("2", {| partitionId := "2"; ownerId := Some "A";
              lastModifiedTimeInMS := Some 99000%Z |})]
    ["0"; "1"; "2"]) as (po & E & _ & Ho & _).
  - unfold Qle; simpl; lia.
  - unfold Qlt; simpl; lia.
  - repeat constructor; simpl; intuition discriminate.
  - repeat split; vm_compute; congruence.
  - exists po. split; [exact E | exact Ho].
Defined.

(** C7. When the active view is not empty and holds no partition of the
    caller, the caller is still one of the [C] owners used for
    [floor(P/C)] and [P mod C]: the owner map has one entry more than the
    owners seen in the view.  Hence, when a single other owner actively owns
    all [P >= 2] candidates, [C = 2] and the caller's [loadBalance] returns
    one partition of that owner (a steal), not the empty list. *)
Theorem loadBalance_self_registration
    (this : Fair.FairPartitionLoadBalancer) (clock : nat -> Z) (r : Q)
    (ledger : Ledger) (parts : list string) :
  let active := Fair._removeInactivePartitionOwnerships this clock ledger in
  let opm := Fair.buildOwnerPartitionMap this active in
  (active <> [] -> held active (me this) = 0 ->
   JsMap.get (me this) opm = Some []
   /\ JsMap.size opm
      = S (length (nodup eq_dec (map ownerId (JsMap.values active)))))
  /\ (forall other : option string,
        (0 <= r)%Q -> (r < 1)%Q ->
        other <> me this ->
        (forall po, In po (JsMap.values active) -> ownerId po = other) ->
        incl parts (JsMap.keys active) ->
        2 <= length parts ->
        JsMap.size opm = 2
        /\ length parts / JsMap.size opm = length parts / 2
        /\ exists po,
             Fair.loadBalance this clock r ledger parts
             = Returns [Some (partitionId po)]
             /\ In po (JsMap.values active)
             /\ ownerId po = other).
Proof.
  intros active opm.
  assert (Hheld0 : held active (me this) = 0 ->
                   ~ In (me this) (map ownerId (JsMap.values active))).
  { unfold held. intros Hl I. apply in_map_iff in I.
    destruct I as (po & Eo & I).
    assert (F : In po (owned_by (me this) (JsMap.values active))).
    { apply filter_In. split; [exact I | now apply owner_is_true]. }
    destruct (owned_by (me this) (JsMap.values active));
      [destruct F | discriminate]. }
  assert (Hsize : held active (me this) = 0 ->
                  JsMap.size opm
                  = S (length (nodup eq_dec (map ownerId (JsMap.values active))))).
  { intros Hl. unfold opm. rewrite ownerMap_size_view. unfold view_owners.
    simpl. destruct (in_dec eq_dec (me this) _) as [I|N]; [|reflexivity].
    now apply Hheld0 in I. }
  split.
  - intros Hne Hl. split; [|now apply Hsize].
    unfold opm. rewrite ownerMap_get_me. unfold held in Hl.
    now destruct (owned_by (me this) (JsMap.values active)).
  - intros other H0 H1 Hother Hall Hincl HP.
    assert (Hne : active <> []).
    { intros E. rewrite E in Hincl. destruct parts as [|p ps]; simpl in HP;
        [lia|]. apply (Hincl p). now left. }
    assert (Hl : held active (me this) = 0).
    { unfold held, owned_by.
      replace (filter (owner_is (me this)) (JsMap.values active))
        with (@nil PartitionOwnership); [reflexivity|].
      symmetry. apply filter_nil_iff. intros po I.
      destruct (owner_is (me this) po) eqn:E; [|reflexivity].
      apply owner_is_true in E. rewrite (Hall po I) in E. congruence. }
    assert (HC : JsMap.size opm = 2).
    { rewrite (Hsize Hl).
      rewrite (nodup_constant eq_dec other); [reflexivity | |].
      - destruct active; [congruence | discriminate].
      - intros o I. apply in_map_iff in I. destruct I as (po & <- & I).
        now apply Hall. }
    split; [exact HC|]. split; [now rewrite HC|].
    assert (Hmin : 0 < length parts / 2).
    { apply Nat.div_str_pos. lia. }
    destruct (findPartitionToSteal_owner this r active H0 H1 Hne)
      as (po & Est & Ipo & _).
    exists po. split; [|split; [exact Ipo | now apply Hall]].
    unfold Fair.loadBalance. fold active.
    destruct (JsMap.size active =? 0) eqn:Esz.
    { apply size_zero in Esz. congruence. }
    fold opm. rewrite HC.
    destruct (Fair._isLoadBalanced _ _ opm) eqn:Eb.
    { apply isLoadBalanced_spec in Eb. destruct Eb as [F _].
      rewrite Forall_forall in F.
      assert (I : In (held active (me this)) (counts opm)).
      { unfold opm. rewrite ownerMap_counts_held. apply in_map.
        apply ownerMap_keys. now left. }
      apply F in I. lia. }
    unfold opm. rewrite shouldOwnMorePartitions_eval, Hl.
    destruct (Nat.ltb_spec 0 (length parts / 2)); [|lia]. simpl.
    apply unOwned_nil_incl in Hincl.
    fold (Fair.unOwnedPartitionIds active parts). rewrite Hincl. simpl.
    fold opm in Est. fold opm. now rewrite Est.
Qed.

Lemma loadBalance_self_registration_witness :
  exists po,
    Fair.loadBalance (Fair.constructor "B" 30000) (fun _ => 100000%Z) (1 # 4)
      [("0", {| partitionId := "0"; ownerId := Some "A";
                lastModifiedTimeInMS := Some 99000%Z |});
       ("1", {| partitionId := "1"; ownerId := Some "A";
                lastModifiedTimeInMS := Some 99000%Z |})]
      ["0"; "1"]
    = Returns [Some (partitionId po)]
    /\ ownerId po = Some "A".
Proof.
  destruct (proj2 (loadBalance_self_registration
    (Fair.constructor "B" 30000) (fun _ => 100000%Z) (1 # 4)
    [("0", {| partitionId := "0"; ownerId := Some "A";
              lastModifiedTimeInMS := Some 99000%Z |});
     ("1", {| partitionId := "1"; ownerId := Some "A";
              lastModifiedTimeInMS := Some 99000%Z |})]
    ["0"; "1"]) (Some "A")) as (_ & _ & po & E & _ & Ho).
  - unfold Qle; simpl; lia.
  - unfold Qlt; simpl; lia.
  - discriminate.
  - vm_compute. intros po [<-|[<-|[]]]; reflexivity.
  - vm_compute. intros p [<-|[<-|[]]]; auto.
  - simpl. lia.
  - exists po. split; [exact E | exact Ho].
Defined.

(** ** Simulated rounds *)

(** ** Convergence when the instances take turns *)

Lemma hits_succ (C j i n : nat) :
  hits C j i (S n) = hits C j i n + (if (i + n) mod C =? j then 1 else 0).
Proof.
  unfold hits. rewrite seq_S, filter_app, length_app. simpl.
  destruct ((i + n) mod C =? j); reflexivity.
Qed.

Lemma succ_div_mod (C k : nat) :
  0 < C ->
  (S (k mod C) < C /\ S k / C = k / C /\ S k mod C = S (k mod C))
  \/ (S (k mod C) = C /\ S k / C = S (k / C) /\ S k mod C = 0).
Proof.
  intros HC.
  pose proof (Nat.div_mod_eq k C) as E.
  pose proof (Nat.mod_upper_bound k C ltac:(lia)) as Hm.
  destruct (Nat.eq_dec (S (k mod C)) C) as [Heq|Hne]; [right|left].
  - split; [exact Heq|].
    assert (E' : S k = C * S (k / C) + 0) by nia.
    split; symmetry.
    + apply (Nat.div_unique (S k) C (S (k / C)) 0); [lia | exact E'].
    + apply (Nat.mod_unique (S k) C (S (k / C)) 0); [lia | exact E'].
  - split; [lia|].
    assert (E' : S k = C * (k / C) + S (k mod C)) by lia.
    split; symmetry.
    + apply (Nat.div_unique (S k) C (k / C) (S (k mod C))); [lia | exact E'].
    + apply (Nat.mod_unique (S k) C (k / C) (S (k mod C))); [lia | exact E'].
Qed.

(** Of the first [k] turns, instance [j] gets [floor(k/C)], and one more
    when [j < k mod C]. *)
Lemma hits_formula (C j k : nat) :
  j < C -> hits C j 0 k = k / C + (if j <? k mod C then 1 else 0).
Proof.
  intros Hj. induction k as [|k IH].
  - rewrite Nat.Div0.div_0_l, Nat.Div0.mod_0_l. reflexivity.
  - rewrite hits_succ, IH. simpl (0 + k).
    destruct (succ_div_mod C k ltac:(lia)) as [(Hlt & -> & ->)|(Heq & -> & ->)].
    + destruct (Nat.ltb_spec j (k mod C)); destruct (Nat.eqb_spec (k mod C) j);
        destruct (Nat.ltb_spec j (S (k mod C))); lia.
    + destruct (Nat.ltb_spec j (k mod C)); destruct (Nat.eqb_spec (k mod C) j);
        destruct (Nat.ltb_spec j 0); lia.
Qed.

Lemma list_sum_all_max (b : nat) (l : list nat) :
  Forall (fun n => n <= b) l -> list_sum l = length l * b ->
  Forall (fun n => n = b) l.
Proof.
  induction 1 as [|n l Hn Hl IH]; intros E; [constructor|].
  simpl in E. pose proof (list_sum_bound b l Hl).
  constructor; [nia | apply IH; nia].
Qed.

(** Counts that differ by at most one and add up to [P] are balanced. *)
Lemma spread_one_balanced (P a : nat) (held : list nat) :
  held <> [] ->
  Forall (fun n => a <= n <= a + 1) held ->
  list_sum held = P ->
  balanced_spec (P / length held) (P mod length held) held.
Proof.
  intros Hne F S.
  assert (Hm : 0 < length held) by (destruct held; simpl; [congruence|lia]).
  pose proof (list_sum_two_levels a held F) as E.
  pose proof (filter_length_le (fun n => n =? a + 1) held) as Ht.
  set (t := length (filter (fun n => n =? a + 1) held)) in *.
  destruct (Nat.eq_dec t (length held)) as [Hall|Hsome].
  - assert (Fb : Forall (fun n => n = a + 1) held).
    { apply list_sum_all_max; [|lia].
      eapply Forall_impl; [|exact F]. simpl. intros; lia. }
    assert (Hd : P / length held = a + 1).
    { symmetry. apply (Nat.div_unique P (length held) (a + 1) 0); lia. }
    apply two_levels_balanced; [exact Hne | | exact S].
    rewrite Hd. eapply Forall_impl; [|exact Fb]. simpl. intros; lia.
  - assert (Hd : P / length held = a).
    { symmetry. apply (Nat.div_unique P (length held) a t); lia. }
    apply two_levels_balanced; [exact Hne | | exact S].
    now rewrite Hd.
Qed.

Lemma counts_length (opm : OwnerPartitionMap) :
  length (counts opm) = JsMap.size opm.
Proof. unfold counts, JsMap.values, JsMap.size. now rewrite !length_map. Qed.

Section RoundRobin.
Variables (limit now : Z) (owners parts : list string).
Hypothesis limit_pos : (0 < limit)%Z.
Hypothesis now_set : now <> 0%Z.
Hypothesis owners_not_nil : owners <> [].
Hypothesis owners_NoDup : NoDup owners.
Hypothesis owners_named : ~ In "" owners.
Hypothesis parts_NoDup : NoDup parts.

Local Abbreviation C := (length owners).

Lemma owners_pos : 0 < C.
Proof. destruct owners; simpl; [congruence | lia]. Qed.

Lemma turn_In k : In (turn owners k) owners.
Proof.
  unfold turn. apply nth_In. apply Nat.mod_upper_bound.
  pose proof owners_pos. lia.
Qed.

Lemma claimed_active (caller o pid : string) :
  In o owners ->
  Fair.isActive (Fair.constructor caller limit) now (snd (claimed now o pid))
  = true.
Proof.
  intros Ho. unfold Fair.isActive. simpl. rewrite Z.sub_diag.
  destruct (Z.eqb_spec now 0); [contradiction|].
  destruct (Z.ltb_spec 0 limit); [|lia].
  destruct (String.eqb_spec o ""); [subst o; contradiction | reflexivity].
Qed.

Lemma keys_ledger_of pids : forall i,
  JsMap.keys (ledger_of now owners i pids) = pids.
Proof.
  induction pids as [|p ps IH]; intros i; simpl; [reflexivity|].
  f_equal. apply IH.
Qed.

Lemma length_ledger_of pids i :
  length (ledger_of now owners i pids) = length pids.
Proof.
  rewrite <- (keys_ledger_of pids i) at 2. unfold JsMap.keys.
  now rewrite length_map.
Qed.

Lemma ledger_of_snoc pids p : forall i,
  ledger_of now owners i (pids ++ [p])
  = ledger_of now owners i pids
    ++ [claimed now (turn owners (i + length pids)) p].
Proof.
  induction pids as [|q ps IH]; intros i; simpl.
  - now rewrite Nat.add_0_r.
  - rewrite IH. now rewrite Nat.add_succ_r.
Qed.

Lemma active_from_ledger_of caller pids : forall i0 i,
  active_from (Fair.constructor caller limit) (fun _ => now) i0
    (ledger_of now owners i pids)
  = ledger_of now owners i pids.
Proof.
  induction pids as [|p ps IH]; intros i0 i; simpl; [reflexivity|].
  pose proof (claimed_active caller (turn owners i) p (turn_In i)) as A.
  simpl in A. rewrite A. f_equal. apply IH.
Qed.

(** Every record of the simulation is fresh: pruning keeps the ledger. *)
Lemma active_ledger_of caller pids :
  NoDup pids ->
  Fair._removeInactivePartitionOwnerships (Fair.constructor caller limit)
    (fun _ => now) (ledger_of now owners 0 pids)
  = ledger_of now owners 0 pids.
Proof.
  intros ND. rewrite removeInactive_active_from.
  - apply active_from_ledger_of.
  - now rewrite keys_ledger_of.
Qed.

Lemma held_ledger_of pids : forall i j,
  j < C ->
  held (ledger_of now owners i pids) (Some (nth j owners ""))
  = hits C j i (length pids).
Proof.
  induction pids as [|p ps IH]; intros i j Hj; [reflexivity|].
  specialize (IH (S i) j Hj). unfold held, hits in *. simpl.
  unfold owner_is at 1. simpl.
  assert (Hi : i mod C < C) by (apply Nat.mod_upper_bound; lia).
  destruct (eq_dec (Some (turn owners i)) (Some (nth j owners "")))
    as [E|N]; destruct (Nat.eqb_spec (i mod C) j) as [E'|N']; simpl.
  - now rewrite IH.
  - exfalso. apply N'. inversion E as [E1]. unfold turn in E1.
    apply (proj1 (NoDup_nth owners "") owners_NoDup); auto.
  - exfalso. apply N. unfold turn. now rewrite E'.
  - exact IH.
Qed.

Lemma held_owner pids o :
  In o owners ->
  exists j, j < C
    /\ held (ledger_of now owners 0 pids) (Some o)
       = length pids / C + (if j <? length pids mod C then 1 else 0).
Proof.
  intros Ho. destruct (In_nth owners o "" Ho) as (j & Hj & <-).
  exists j. split; [exact Hj|].
  rewrite held_ledger_of by exact Hj. now apply hits_formula.
Qed.

Lemma held_bounds pids o :
  In o owners ->
  length pids / C <= held (ledger_of now owners 0 pids) (Some o)
  <= length pids / C + 1.
Proof.
  intros Ho. destruct (held_owner pids o Ho) as (j & _ & ->).
  destruct (j <? length pids mod C); lia.
Qed.

(** The instance whose turn it is holds the fewest. *)
Lemma held_turn pids :
  held (ledger_of now owners 0 pids) (Some (turn owners (length pids)))
  = length pids / C.
Proof.
  unfold turn.
  assert (Hj : length pids mod C < C)
    by (apply Nat.mod_upper_bound; pose proof owners_pos; lia).
  rewrite held_ledger_of by exact Hj. rewrite hits_formula by exact Hj.
  rewrite Nat.ltb_irrefl. lia.
Qed.

Lemma owners_ledger_of pids : forall i o,
  In o (map ownerId (JsMap.values (ledger_of now owners i pids))) ->
  exists x, o = Some x /\ In x owners.
Proof.
  induction pids as [|p ps IH]; intros i o; simpl; [tauto|].
  intros [<-|I]; [|eauto]. exists (turn owners i).
  split; [reflexivity | apply turn_In].
Qed.

Lemma ownerMap_keys_owners caller pids o :
  In caller owners ->
  In o (JsMap.keys (Fair.buildOwnerPartitionMap
                      (Fair.constructor caller limit)
                      (ledger_of now owners 0 pids))) ->
  exists x, o = Some x /\ In x owners.
Proof.
  intros Hc I. apply ownerMap_keys in I. destruct I as [->|I].
  - exists caller. split; [reflexivity | exact Hc].
  - eapply owners_ledger_of; eauto.
Qed.

(** The view never has more owners than there are instances. *)
Lemma ownerMap_size_bound caller pids :
  In caller owners ->
  JsMap.size (Fair.buildOwnerPartitionMap (Fair.constructor caller limit)
                (ledger_of now owners 0 pids)) <= C.
Proof.
  intros Hc.
  set (opm := Fair.buildOwnerPartitionMap _ _).
  assert (Hincl : incl (JsMap.keys opm) (map Some owners)).
  { intros o I. destruct (ownerMap_keys_owners caller pids o Hc I)
      as (x & -> & Hx). now apply in_map. }
  apply (NoDup_incl_length (ownerMap_NoDup _ _)) in Hincl.
  unfold JsMap.keys in Hincl. rewrite !length_map in Hincl. exact Hincl.
Qed.

(** *** One round *)

(** While partitions remain, the instance whose turn it is claims one
    that nobody holds. *)
Lemma round_claims pids (r : Q) :
  NoDup pids -> incl pids parts -> length pids < length parts ->
  (0 <= r)%Q -> (r < 1)%Q ->
  exists p,
    In p parts /\ ~ In p pids
    /\ round limit now parts (ledger_of now owners 0 pids)
         (turn owners (length pids)) r
       = ledger_of now owners 0 (pids ++ [p]).
Proof.
  intros ND Hincl Hlt H0 H1.
  set (caller := turn owners (length pids)).
  set (ledger := ledger_of now owners 0 pids).
  assert (Hlen : length ledger = length pids) by apply length_ledger_of.
  assert (Hkeys : JsMap.keys ledger = pids) by apply keys_ledger_of.
  assert (Hpersist : forall p, In p parts -> ~ In p pids ->
            fold_left (persist_claim now caller) [Some p] ledger
            = ledger_of now owners 0 (pids ++ [p])).
  { intros p _ Hp. simpl. rewrite set_fresh.
    - rewrite ledger_of_snoc. reflexivity.
    - apply get_None. now rewrite Hkeys. }
  assert (Hact : Fair._removeInactivePartitionOwnerships
                   (Fair.constructor caller limit) (fun _ => now) ledger
                 = ledger) by (apply active_ledger_of; exact ND).
  unfold round, Fair.loadBalance. rewrite Hact.
  destruct (JsMap.size ledger =? 0) eqn:Esz.
  - (* the first call of all *)
    assert (Hp : parts <> []) by (destruct parts; simpl in *; [lia|congruence]).
    destruct (array_at_random _ parts r H0 H1 Hp) as (p & -> & Ip).
    apply size_zero in Esz. exists p.
    assert (Hnp : ~ In p pids).
    { rewrite <- Hkeys, Esz. simpl. tauto. }
    split; [exact Ip|]. split; [exact Hnp|]. now apply Hpersist.
  - set (opm := Fair.buildOwnerPartitionMap
                  (Fair.constructor caller limit) ledger).
    assert (Hsz : 0 < JsMap.size opm) by apply ownerMap_size_pos.
    assert (HszC : JsMap.size opm <= C)
      by (apply ownerMap_size_bound, turn_In).
    destruct (Fair._isLoadBalanced _ _ opm) eqn:Eb.
    { exfalso. apply isLoadBalanced_spec in Eb.
      rewrite <- (counts_length opm) in Eb.
      apply balanced_sum in Eb.
      - unfold opm in Eb. rewrite ownerMap_sum in Eb. lia.
      - intros E. pose proof (counts_length opm) as L. rewrite E in L.
        simpl in L. lia. }
    unfold opm. rewrite shouldOwnMorePartitions_eval.
    change (me (Fair.constructor caller limit)) with (Some caller).
    unfold caller, ledger. rewrite held_turn. fold ledger caller opm.
    rewrite Hlen.
    assert (Hmin : length pids / C <= length parts / JsMap.size opm).
    { transitivity (length parts / C).
      - apply Nat.Div0.div_le_mono. lia.
      - apply Nat.div_le_compat_l. lia. }
    destruct (Nat.ltb_spec (length pids) (length parts)); [|lia].
    destruct (Nat.ltb_spec (length pids / C)
                (length parts / JsMap.size opm + 1)); [|lia].
    rewrite orb_true_r.
    destruct (Fair.unOwnedPartitionIds ledger parts) as [|u us] eqn:Eu.
    { exfalso. apply unOwned_nil_incl in Eu. rewrite Hkeys in Eu.
      apply (NoDup_incl_length parts_NoDup) in Eu. lia. }
    assert (Hu : u :: us <> []) by discriminate.
    destruct (array_at_random _ (u :: us) r H0 H1 Hu) as (p & Ep & Ip).
    change (length (u :: us) =? 0) with false. cbv iota.
    rewrite Ep. exists p.
    rewrite <- Eu in Ip. unfold Fair.unOwnedPartitionIds in Ip.
    apply filter_In in Ip. destruct Ip as [Ip Hh].
    assert (Hnp : ~ In p pids).
    { rewrite <- Hkeys. apply has_false.
      now destruct (JsMap.has p ledger). }
    split; [exact Ip|]. split; [exact Hnp|]. now apply Hpersist.
Qed.

(** *** The rounds until every partition is claimed *)

Lemma simulate_round_robin draws : forall pids,
  NoDup pids -> incl pids parts ->
  length pids + length draws <= length parts ->
  Forall (fun r => (0 <= r)%Q /\ (r < 1)%Q) draws ->
  exists pids',
    simulate limit now parts
      (round_robin_from owners (length pids) draws)
      (ledger_of now owners 0 pids)
    = ledger_of now owners 0 pids'
    /\ NoDup pids' /\ incl pids' parts
    /\ length pids' = length pids + length draws.
Proof.
  induction draws as [|r draws IH]; intros pids ND Hincl Hlen Hr; simpl.
  - exists pids. repeat split; auto.
  - simpl in Hlen. inversion Hr as [|? ? [H0 H1] Hr']; subst.
    destruct (round_claims pids r ND Hincl ltac:(lia) H0 H1)
      as (p & Ip & Hnp & ->).
    assert (L : length (pids ++ [p]) = S (length pids))
      by (rewrite length_app; simpl; lia).
    destruct (IH (pids ++ [p])) as (pids' & E & ND' & Hincl' & Hlen').
    + apply NoDup_app; [exact ND | repeat constructor; simpl; tauto|].
      intros x Hx [<-|[]]. contradiction.
    + intros x Hx. apply in_app_iff in Hx. destruct Hx as [Hx|[<-|[]]]; auto.
    + lia.
    + exact Hr'.
    + rewrite L in E. exists pids'. repeat split; auto. lia.
Qed.

(** *** Once every partition is claimed *)

Lemma all_claimed_balanced pids caller (r : Q) :
  NoDup pids -> length pids = length parts -> parts <> [] ->
  In caller owners ->
  let this := Fair.constructor caller limit in
  let ledger := ledger_of now owners 0 pids in
  view_balanced this
    (Fair._removeInactivePartitionOwnerships this (fun _ => now) ledger)
    (length parts)
  /\ Fair.loadBalance this (fun _ => now) r ledger parts = Returns [].
Proof.
  intros ND Hlen Hp Hc this ledger.
  assert (Hact : Fair._removeInactivePartitionOwnerships this
                   (fun _ => now) ledger = ledger)
    by (apply active_ledger_of; exact ND).
  assert (Hne : ledger <> []).
  { intros E. pose proof (length_ledger_of pids 0) as L.
    fold ledger in L. rewrite E in L. simpl in L.
    destruct parts; simpl in *; [congruence | lia]. }
  assert (Hb : view_balanced this ledger (length parts)).
  { apply isLoadBalanced_view. simpl.
    set (opm := Fair.buildOwnerPartitionMap this ledger).
    apply isLoadBalanced_spec. rewrite <- (counts_length opm).
    apply (spread_one_balanced _ (length pids / C)).
    - intros E. pose proof (counts_length opm) as L. rewrite E in L.
      pose proof (ownerMap_size_pos this ledger). fold opm in H.
      simpl in L. lia.
    - unfold opm. rewrite ownerMap_counts_held. apply Forall_map.
      apply Forall_forall. intros o I.
      destruct (ownerMap_keys_owners caller pids o Hc I) as (x & -> & Hx).
      now apply held_bounds.
    - unfold opm. rewrite ownerMap_sum. unfold ledger.
      rewrite length_ledger_of. exact Hlen. }
  split; [now rewrite Hact|].
  apply loadBalance_balanced; rewrite Hact; assumption.
Qed.
End RoundRobin.

(** C3, as stated, fails: convergence within [P] rounds does not hold for
    every order of calls.  With candidates ["0","1","2","3"] and instances
    "A" and "B", let "A" make the first three calls and "B" the fourth: "A"
    claims three partitions and "B" the last one, and "B", holding one
    partition where [floor(4/2) = 2], steals at its next call.  No prefix
    of these [P = 4] rounds leaves a ledger on which every instance returns
    the empty list. *)
Lemma convergence_depends_on_order :
  ~ converges_in_any_order 30000 100000 ["A"; "B"] ["0"; "1"; "2"; "3"].
Proof.
  intros H.
  destruct (H [("A", 0%Q); ("A", 0%Q); ("A", 0%Q); ("B", 0%Q)])
    as (n & Hn & Hc).
  - repeat constructor; simpl; auto; unfold Qle, Qlt; simpl; lia.
  - reflexivity.
  - assert (Q0 : (0 <= 0)%Q) by (unfold Qle; simpl; lia).
    assert (Q1 : (0 < 1)%Q) by (unfold Qlt; simpl; lia).
    simpl in Hn.
    destruct n as [|[|[|[|[|n]]]]]; [| | | | |lia].
    + specialize (Hc "A" 0%Q (or_introl eq_refl) Q0 Q1).
      vm_compute in Hc. discriminate.
    + specialize (Hc "A" 0%Q (or_introl eq_refl) Q0 Q1).
      vm_compute in Hc. discriminate.
    + specialize (Hc "A" 0%Q (or_introl eq_refl) Q0 Q1).
      vm_compute in Hc. discriminate.
    + specialize (Hc "A" 0%Q (or_introl eq_refl) Q0 Q1).
      vm_compute in Hc. discriminate.
    + specialize (Hc "B" 0%Q (or_intror (or_introl eq_refl)) Q0 Q1).
      vm_compute in Hc. discriminate.
Qed.

(** C3, amended.  Start from an empty ledger, with [P >= 1] distinct
    candidates and [C >= 1] instances of distinct, non-empty owner ids that
    call [loadBalance] in turn (the [k]-th call is made by instance
    [k mod C]) and persist the returned claim at once, all heartbeats
    fresh.  After exactly [P] calls every candidate is claimed, the view of
    every instance is balanced, and every later call by any instance returns
    the empty list and leaves the ledger unchanged. *)
Theorem round_robin_converges
    (limit now : Z) (owners parts : list string) (draws : list Q) :
  (0 < limit)%Z -> now <> 0%Z ->
  owners <> [] -> NoDup owners -> ~ In "" owners ->
  parts <> [] -> NoDup parts ->
  length draws = length parts ->
  Forall (fun r => (0 <= r)%Q /\ (r < 1)%Q) draws ->
  let ledger := simulate limit now parts (round_robin owners draws) [] in
  length ledger = length parts
  /\ incl parts (JsMap.keys ledger)
  /\ forall o, In o owners ->
       let this := Fair.constructor o limit in
       view_balanced this
         (Fair._removeInactivePartitionOwnerships this (fun _ => now) ledger)
         (length parts)
       /\ (length parts / length owners
           <= held ledger (Some o) <= length parts / length owners + 1)
       /\ forall r,
            Fair.loadBalance this (fun _ => now) r ledger parts = Returns []
            /\ round limit now parts ledger o r = ledger.
Proof.
  intros Hlimit Hnow Ho NDo Hnamed Hp NDp Hlen Hr ledger.
  destruct (simulate_round_robin limit now owners parts Hlimit Hnow Ho NDo
              Hnamed NDp draws [] (NoDup_nil _) (incl_nil_l _)
              ltac:(simpl; lia) Hr)
    as (pids & E & NDpids & Hincl & Hpids).
  simpl in E, Hpids. fold (round_robin owners draws) in E. fold ledger in E.
  assert (L : length pids = length parts) by lia.
  split; [|split].
  - rewrite E, length_ledger_of. exact L.
  - rewrite E, keys_ledger_of.
    apply NoDup_length_incl; [exact NDpids | lia | exact Hincl].
  - intros o Io this.
    split; [|split].
    + rewrite E.
      apply (all_claimed_balanced limit now owners parts Hlimit Hnow Ho NDo
               Hnamed NDp pids o 0%Q NDpids L Hp Io).
    + rewrite E, <- L.
      apply (held_bounds now owners NDo pids o Io).
    + intros r.
      assert (Hl : Fair.loadBalance this (fun _ => now) r ledger parts
                   = Returns []).
      { rewrite E.
        apply (all_claimed_balanced limit now owners parts Hlimit Hnow Ho NDo
                 Hnamed NDp pids o r NDpids L Hp Io). }
      split; [exact Hl|]. unfold round. fold this. now rewrite Hl.
Qed.

Lemma round_robin_converges_witness :
  let ledger :=
    simulate 30000 100000 ["0"; "1"; "2"; "3"]
      (round_robin ["A"; "B"; "C"] [1 # 2; 1 # 3; 0 # 1; 9 # 10]) [] in
  map (fun o => held ledger (Some o)) ["A"; "B"; "C"] = [2; 1; 1]
  /\ forall o, In o ["A"; "B"; "C"] ->
       Fair.loadBalance (Fair.constructor o 30000) (fun _ => 100000%Z) (1 # 2)
         ledger ["0"; "1"; "2"; "3"] = Returns [].
Proof.
  intros ledger. split; [vm_compute; reflexivity|].
  intros o Io.
  assert (Hq : Forall (fun r => (0 <= r)%Q /\ (r < 1)%Q)
                 [1 # 2; 1 # 3; 0 # 1; 9 # 10]).
  { repeat constructor; unfold Qle, Qlt; simpl; lia. }
  assert (NDo : NoDup ["A"; "B"; "C"]).
  { repeat constructor; simpl; intuition discriminate. }
  assert (NDp : NoDup ["0"; "1"; "2"; "3"]).
  { repeat constructor; simpl; intuition discriminate. }
  assert (Hn : ~ In "" ["A"; "B"; "C"]).
  { simpl. intuition discriminate. }
  destruct (round_robin_converges 30000 100000 ["A"; "B"; "C"]
              ["0"; "1"; "2"; "3"] [1 # 2; 1 # 3; 0 # 1; 9 # 10]
              ltac:(lia) ltac:(lia) ltac:(discriminate) NDo Hn
              ltac:(discriminate) NDp eq_refl Hq) as (_ & _ & H).
  destruct (H o Io) as (_ & _ & Hr). apply (Hr (1 # 2)).
Defined.

(** * Further properties of the code *)

(** ** [GreedyPartitionLoadBalancer] *)

Lemma has_keys_ext (ledger ledger' : Ledger) (p : string) :
  (In p (JsMap.keys ledger) <-> In p (JsMap.keys ledger')) ->
  JsMap.has p ledger = JsMap.has p ledger'.
Proof.
  intros Hk. destruct (JsMap.has p ledger') eqn:E.
  - apply has_true. apply Hk. now apply has_true.
  - apply has_false. intros I. apply Hk in I. apply has_true in I. congruence.
Qed.

(** The two filters of [loadBalance] as one test on a candidate. *)
Lemma greedy_as_filter (this : Greedy.GreedyPartitionLoadBalancer)
    (ledger : Ledger) (parts : list string) :
  Greedy.loadBalance this ledger parts
  = filter (fun p =>
              match Greedy.partitionsToClaim this with
              | Some toClaim => Greedy.Set_has toClaim p
              | None => true
              end && negb (JsMap.has p ledger)) parts.
Proof.
  unfold Greedy.loadBalance.
  destruct (Greedy.partitionsToClaim this) as [s|]; simpl.
  - apply filter_filter_andb.
  - reflexivity.
Qed.

(** X1. The greedy balancer reads only the keys of the ledger: two ledgers
    with the same partition ids, whatever their owners and heartbeats, give
    the same result.  A record that is stale still keeps its partition from
    being claimed. *)
Theorem greedy_reads_only_keys
    (this : Greedy.GreedyPartitionLoadBalancer) (ledger ledger' : Ledger)
    (parts : list string) :
  (forall p, In p (JsMap.keys ledger) <-> In p (JsMap.keys ledger')) ->
  Greedy.loadBalance this ledger parts = Greedy.loadBalance this ledger' parts.
Proof.
  intros Hk. rewrite !greedy_as_filter. apply filter_ext. intros p.
  now rewrite (has_keys_ext ledger ledger' p (Hk p)).
Qed.

Lemma greedy_reads_only_keys_witness :
  Greedy.loadBalance (Greedy.constructor None)
    [("0", {| partitionId := "0"; ownerId := Some "A";
              lastModifiedTimeInMS := Some 99000%Z |})] ["0"; "1"]
  = Greedy.loadBalance (Greedy.constructor None)
      [("0", {| partitionId := "0"; ownerId := None;
                lastModifiedTimeInMS := None |})] ["0"; "1"].
Proof.
  apply greedy_reads_only_keys. intros p. simpl. tauto.
Defined.

(** X2. The greedy result is stable: running [loadBalance] again on its own
    result, with the same ledger, returns that result unchanged. *)
Theorem greedy_idempotent
    (this : Greedy.GreedyPartitionLoadBalancer) (ledger : Ledger)
    (parts : list string) :
  Greedy.loadBalance this ledger (Greedy.loadBalance this ledger parts)
  = Greedy.loadBalance this ledger parts.
Proof.
  rewrite (greedy_as_filter this ledger (Greedy.loadBalance this ledger parts)).
  rewrite greedy_as_filter, filter_filter_andb. apply filter_ext.
  intros p. apply andb_diag.
Qed.

(** X3. When the ledger grows (every partition id it had is kept), the new
    result is the old result without the ids now in the ledger; once every
    returned id is in the ledger, the next call returns nothing. *)
Theorem greedy_after_ledger_grows
    (this : Greedy.GreedyPartitionLoadBalancer) (ledger ledger' : Ledger)
    (parts : list string) :
  incl (JsMap.keys ledger) (JsMap.keys ledger') ->
  Greedy.loadBalance this ledger' parts
  = filter (fun p => negb (JsMap.has p ledger'))
           (Greedy.loadBalance this ledger parts)
  /\ (incl (Greedy.loadBalance this ledger parts) (JsMap.keys ledger') ->
      Greedy.loadBalance this ledger' parts = []).
Proof.
  intros Hincl.
  assert (E : Greedy.loadBalance this ledger' parts
              = filter (fun p => negb (JsMap.has p ledger'))
                       (Greedy.loadBalance this ledger parts)).
  { rewrite !greedy_as_filter, filter_filter_andb. apply filter_ext.
    intros p. destruct (JsMap.has p ledger) eqn:Eh.
    - apply has_true in Eh. apply Hincl in Eh. apply has_true in Eh.
      rewrite Eh. simpl. now rewrite !andb_false_r.
    - simpl. now rewrite andb_true_r. }
  split; [exact E|]. intros Hall. rewrite E. apply filter_nil_iff.
  intros p Ip. apply Hall in Ip. apply has_true in Ip. now rewrite Ip.
Qed.

Lemma greedy_after_ledger_grows_witness :
  Greedy.loadBalance (Greedy.constructor (Some ["0"; "2"]))
    [("0", {| partitionId := "0"; ownerId := Some "A";
              lastModifiedTimeInMS := Some 99000%Z |});
     ("2", {| partitionId := "2"; ownerId := Some "A";
              lastModifiedTimeInMS := Some 99000%Z |})]
    ["0"; "1"; "2"; "3"] = [].
Proof.
  refine (proj2 (greedy_after_ledger_grows
    (Greedy.constructor (Some ["0"; "2"])) [] _ ["0"; "1"; "2"; "3"] _) _).
  - intros p [].
  - vm_compute. intros p [<-|[<-|[]]]; auto.
Defined.

(** X4. The watched ids act as a set: two lists of ids with the same members,
    in any order and with any repetitions, make balancers that return the
    same result; an empty list of ids makes a balancer that claims nothing. *)
Theorem greedy_watched_ids_as_set
    (ids ids' : list string) (ledger : Ledger) (parts : list string) :
  (forall p, In p ids <-> In p ids') ->
  Greedy.loadBalance (Greedy.constructor (Some ids)) ledger parts
  = Greedy.loadBalance (Greedy.constructor (Some ids')) ledger parts
  /\ Greedy.loadBalance (Greedy.constructor (Some [])) ledger parts = [].
Proof.
  intros Hm. split.
  - rewrite !greedy_as_filter. apply filter_ext. intros p. simpl.
    rewrite !Set_has_new_Set. f_equal.
    destruct (existsb (String.eqb p) ids') eqn:E.
    + apply existsb_exists in E. destruct E as (x & I & Ex).
      apply existsb_exists. exists x. split; [now apply Hm | exact Ex].
    + destruct (existsb (String.eqb p) ids) eqn:E'; [|reflexivity].
      apply existsb_exists in E'. destruct E' as (x & I & Ex).
      assert (X : existsb (String.eqb p) ids' = true).
      { apply existsb_exists. exists x. split; [now apply Hm | exact Ex]. }
      congruence.
  - rewrite greedy_as_filter. apply filter_nil_iff. intros p _. reflexivity.
Qed.

Lemma greedy_watched_ids_as_set_witness :
  Greedy.loadBalance (Greedy.constructor (Some ["2"; "0"; "2"])) []
    ["0"; "1"; "2"; "3"]
  = Greedy.loadBalance (Greedy.constructor (Some ["0"; "2"])) []
      ["0"; "1"; "2"; "3"].
Proof.
  refine (proj1 (greedy_watched_ids_as_set ["2"; "0"; "2"] ["0"; "2"] []
                   ["0"; "1"; "2"; "3"] _)).
  intros p. simpl. tauto.
Defined.

(** ** [_removeInactivePartitionOwnerships] *)

Lemma active_from_length this clock entries : forall i,
  length (active_from this clock i entries) <= length entries.
Proof.
  induction entries as [|[pid po] rest IH]; intros i; simpl; [lia|].
  specialize (IH (S i)). destruct (Fair.isActive this (clock i) po); simpl; lia.
Qed.

Lemma NoDup_keys_index (ledger : Ledger) (j j' : nat) (pid : string)
    (po po' : PartitionOwnership) :
  NoDup (JsMap.keys ledger) ->
  nth_error ledger j = Some (pid, po) ->
  nth_error ledger j' = Some (pid, po') ->
  j' = j /\ po' = po.
Proof.
  intros ND Ej Ej'.
  assert (E : j' = j).
  { unfold JsMap.keys in ND. rewrite NoDup_nth_error in ND. apply ND.
    - apply nth_error_Some. rewrite nth_error_map, Ej'. discriminate.
    - now rewrite !nth_error_map, Ej, Ej'. }
  subst j'. split; [reflexivity | congruence].
Qed.

Lemma active_from_get this clock (ledger : Ledger) (j : nat) (pid : string)
    (po : PartitionOwnership) :
  NoDup (JsMap.keys ledger) ->
  nth_error ledger j = Some (pid, po) ->
  JsMap.get pid (active_from this clock 0 ledger)
  = if Fair.isActive this (clock j) po then Some po else None.
Proof.
  intros ND Ej. destruct (Fair.isActive this (clock j) po) eqn:A.
  - apply In_get; [now apply active_from_keys_NoDup|].
    apply active_from_In. exists j. auto.
  - apply get_None. intros I. apply in_map_iff in I.
    destruct I as ([k po'] & Ek & I). simpl in Ek. subst k.
    apply active_from_In in I. destruct I as (j' & Ej' & A').
    destruct (NoDup_keys_index ledger j j' pid po po' ND Ej Ej') as [-> ->].
    simpl in A'. congruence.
Qed.

Lemma active_from_constant this (now : Z) entries : forall i j,
  active_from this (fun _ => now) i (active_from this (fun _ => now) j entries)
  = active_from this (fun _ => now) j entries.
Proof.
  induction entries as [|[pid po] rest IH]; intros i j; simpl; [reflexivity|].
  destruct (Fair.isActive this now po) eqn:A; simpl.
  - rewrite A. f_equal. apply IH.
  - apply IH.
Qed.

(** X5. On a ledger with distinct keys, pruning returns a sub-map: its keys
    are distinct, it has no more entries than the ledger, and its entries
    are exactly the entries of the ledger that pass the activity test at
    the clock reading taken for them, each under its own key. *)
Theorem removeInactive_submap
    (this : Fair.FairPartitionLoadBalancer) (clock : nat -> Z)
    (ledger : Ledger) :
  NoDup (JsMap.keys ledger) ->
  let active := Fair._removeInactivePartitionOwnerships this clock ledger in
  NoDup (JsMap.keys active)
  /\ length active <= length ledger
  /\ (forall pid po,
        In (pid, po) active <->
        exists j, nth_error ledger j = Some (pid, po)
                  /\ Fair.isActive this (clock j) po = true)
  /\ (forall j pid po,
        nth_error ledger j = Some (pid, po) ->
        JsMap.get pid active
        = if Fair.isActive this (clock j) po then Some po else None).
Proof.
  intros ND active. unfold active.
  rewrite (removeInactive_active_from this clock ledger ND).
  split; [now apply active_from_keys_NoDup|].
  split; [apply active_from_length|].
  split.
  - intros pid po. apply (active_from_In this clock ledger 0 pid po).
  - intros j pid po Ej. now apply active_from_get.
Qed.

Lemma removeInactive_submap_witness :
  JsMap.get "1"
    (Fair._removeInactivePartitionOwnerships (Fair.constructor "A" 30000)
       (fun _ => 100000%Z)
       [("0", {| partitionId := "0"; ownerId := Some "B";
                 lastModifiedTimeInMS := Some 99000%Z |});
        ("1", {| partitionId := "1"; ownerId := Some "X";
                 lastModifiedTimeInMS := Some 40000%Z |})])
  = None.
Proof.
  refine (proj2 (proj2 (proj2 (removeInactive_submap
    (Fair.constructor "A" 30000) (fun _ => 100000%Z)
    [("0", {| partitionId := "0"; ownerId := Some "B";
              lastModifiedTimeInMS := Some 99000%Z |});
     ("1", {| partitionId := "1"; ownerId := Some "X";
              lastModifiedTimeInMS := Some 40000%Z |})] _))) 1 "1" _ eq_refl).
  repeat constructor; simpl; intuition discriminate.
Defined.

(** X6. Pruning is idempotent when the clock stands still: pruning the pruned
    map of a ledger with distinct keys changes nothing. *)
Theorem removeInactive_idempotent
    (this : Fair.FairPartitionLoadBalancer) (now : Z) (ledger : Ledger) :
  NoDup (JsMap.keys ledger) ->
  Fair._removeInactivePartitionOwnerships this (fun _ => now)
    (Fair._removeInactivePartitionOwnerships this (fun _ => now) ledger)
  = Fair._removeInactivePartitionOwnerships this (fun _ => now) ledger.
Proof.
  intros ND.
  rewrite (removeInactive_active_from this (fun _ => now) ledger ND).
  rewrite removeInactive_active_from
    by (now apply active_from_keys_NoDup).
  apply active_from_constant.
Qed.

Lemma removeInactive_idempotent_witness :
  Fair._removeInactivePartitionOwnerships (Fair.constructor "A" 30000)
    (fun _ => 100000%Z)
    (Fair._removeInactivePartitionOwnerships (Fair.constructor "A" 30000)
       (fun _ => 100000%Z)
       [("0", {| partitionId := "0"; ownerId := Some "B";
                 lastModifiedTimeInMS := Some 99000%Z |});
        ("1", {| partitionId := "1"; ownerId := Some "X";
                 lastModifiedTimeInMS := Some 40000%Z |})])
  = Fair._removeInactivePartitionOwnerships (Fair.constructor "A" 30000)
      (fun _ => 100000%Z)
      [("0", {| partitionId := "0"; ownerId := Some "B";
                lastModifiedTimeInMS := Some 99000%Z |});
       ("1", {| partitionId := "1"; ownerId := Some "X";
                lastModifiedTimeInMS := Some 40000%Z |})].
Proof.
  apply removeInactive_idempotent.
  repeat constructor; simpl; intuition discriminate.
Defined.

(** X7. Edge timestamps.  In a ledger with distinct keys, a record whose
    [lastModifiedTimeInMS] is 0 is pruned whatever the clock and the limit
    (0 is falsy), even when [now - 0] is below the limit; a record with a
    non-empty owner dated at or after the clock reading taken for it is
    kept, unchanged, for every positive limit. *)
Theorem removeInactive_edge_timestamps
    (this : Fair.FairPartitionLoadBalancer) (clock : nat -> Z)
    (ledger : Ledger) (j : nat) (pid : string) (po : PartitionOwnership) :
  NoDup (JsMap.keys ledger) ->
  nth_error ledger j = Some (pid, po) ->
  let active := Fair._removeInactivePartitionOwnerships this clock ledger in
  (lastModifiedTimeInMS po = Some 0%Z -> JsMap.has pid active = false)
  /\ (forall t o,
        lastModifiedTimeInMS po = Some t -> ownerId po = Some o ->
        t <> 0%Z -> o <> "" ->
        (clock j <= t)%Z -> (0 < Fair._inactiveTimeLimitInMS this)%Z ->
        JsMap.get pid active = Some po).
Proof.
  intros ND Ej active. unfold active.
  rewrite (removeInactive_active_from this clock ledger ND).
  split.
  - intros E0. unfold JsMap.has.
    rewrite (active_from_get this clock ledger j pid po ND Ej).
    unfold Fair.isActive. rewrite E0. reflexivity.
  - intros t o Et Eo Ht Ho Hc Hl.
    rewrite (active_from_get this clock ledger j pid po ND Ej).
    unfold Fair.isActive. rewrite Et, Eo. simpl.
    destruct (Z.eqb_spec t 0); [contradiction|].
    destruct (Z.ltb_spec (clock j - t) (Fair._inactiveTimeLimitInMS this));
      [|lia].
    destruct (String.eqb_spec o ""); [contradiction | reflexivity].
Qed.

Lemma removeInactive_edge_timestamps_witness :
  JsMap.has "0"
    (Fair._removeInactivePartitionOwnerships (Fair.constructor "A" 30000)
       (fun _ => 100%Z)
       [("0", {| partitionId := "0"; ownerId := Some "B";
                 lastModifiedTimeInMS := Some 0%Z |})])
  = false.
Proof.
  refine (proj1 (removeInactive_edge_timestamps
    (Fair.constructor "A" 30000) (fun _ => 100%Z)
    [("0", {| partitionId := "0"; ownerId := Some "B";
              lastModifiedTimeInMS := Some 0%Z |})] 0 "0" _ _ eq_refl)
    eq_refl).
  repeat constructor; simpl; tauto.
Defined.

(** ** [_isLoadBalanced] *)

Lemma counts_Permutation (opm opm' : OwnerPartitionMap) :
  Permutation opm opm' -> Permutation (counts opm) (counts opm').
Proof.
  intros Hp. unfold counts, JsMap.values. now repeat apply Permutation_map.
Qed.

(** X8. [_isLoadBalanced] does not depend on the order of the owners in the
    map: on two maps with the same entries in any order it gives the same
    answer. *)
Theorem isLoadBalanced_order_independent
    (minP extra : nat) (opm opm' : OwnerPartitionMap) :
  Permutation opm opm' ->
  Fair._isLoadBalanced minP extra opm = Fair._isLoadBalanced minP extra opm'.
Proof.
  intros Hp. apply counts_Permutation in Hp.
  destruct (Fair._isLoadBalanced minP extra opm') eqn:E'.
  - apply isLoadBalanced_spec. apply isLoadBalanced_spec in E'.
    eapply balanced_spec_Permutation; [apply Permutation_sym|]; eauto.
  - destruct (Fair._isLoadBalanced minP extra opm) eqn:E; [|reflexivity].
    apply isLoadBalanced_spec in E.
    apply (balanced_spec_Permutation _ _ _ _ Hp) in E.
    apply isLoadBalanced_spec in E. congruence.
Qed.

Lemma isLoadBalanced_order_independent_witness :
  Fair._isLoadBalanced 1 1
    [(Some "A", [{| partitionId := "0"; ownerId := Some "A";
                    lastModifiedTimeInMS := None |}]);
     (Some "B", [])]
  = Fair._isLoadBalanced 1 1
      [(Some "B", []);
       (Some "A", [{| partitionId := "0"; ownerId := Some "A";
                      lastModifiedTimeInMS := None |}])].
Proof.
  apply isLoadBalanced_order_independent. apply perm_swap.
Defined.

Lemma balanced_active_count
    (this : Fair.FairPartitionLoadBalancer) (active : Ledger)
    (parts : list string) :
  let opm := Fair.buildOwnerPartitionMap this active in
  Fair._isLoadBalanced (length parts / JsMap.size opm)
    (length parts mod JsMap.size opm) opm = true ->
  length active = length parts.
Proof.
  intros opm Eb. apply isLoadBalanced_spec in Eb.
  rewrite <- (counts_length opm) in Eb. apply balanced_sum in Eb.
  - unfold opm in Eb. now rewrite ownerMap_sum in Eb.
  - intros E. pose proof (counts_length opm) as Lc. rewrite E in Lc.
    pose proof (ownerMap_size_pos this active) as Hs. fold opm in Hs.
    simpl in Lc. lia.
Qed.

(** X9. As [loadBalance] calls it (minimum [floor(P/C)], extras [P mod C],
    [C] the size of the owner map), [_isLoadBalanced] answers true only when
    the number of active records equals the number of candidates: it is
    never true while fewer, or more, records are active than there are
    candidates.  When moreover the keys of the view are distinct and are
    all candidates, it is true only when no candidate is unclaimed. *)
Theorem isLoadBalanced_accounts_for_all
    (this : Fair.FairPartitionLoadBalancer) (active : Ledger)
    (parts : list string) :
  let opm := Fair.buildOwnerPartitionMap this active in
  Fair._isLoadBalanced (length parts / JsMap.size opm)
    (length parts mod JsMap.size opm) opm = true ->
  length active = length parts
  /\ (NoDup (JsMap.keys active) -> incl (JsMap.keys active) parts ->
      Fair.unOwnedPartitionIds active parts = []).
Proof.
  intros opm Eb.
  assert (L : length active = length parts)
    by (now apply (balanced_active_count this active parts)).
  split; [exact L|]. intros ND Hincl. apply unOwned_nil_incl.
  apply NoDup_length_incl; [exact ND | | exact Hincl].
  unfold JsMap.keys. rewrite length_map. lia.
Qed.

Lemma isLoadBalanced_accounts_for_all_witness :
  length [("0", {| partitionId := "0"; ownerId := Some "A";
                   lastModifiedTimeInMS := Some 99000%Z |});
          ("1", {| partitionId := "1"; ownerId := Some "B";
                   lastModifiedTimeInMS := Some 99000%Z |})]
  = length ["0"; "1"]
  /\ Fair.unOwnedPartitionIds
       [("0", {| partitionId := "0"; ownerId := Some "A";
                 lastModifiedTimeInMS := Some 99000%Z |});
        ("1", {| partitionId := "1"; ownerId := Some "B";
                 lastModifiedTimeInMS := Some 99000%Z |})]
       ["0"; "1"] = [].
Proof.
  destruct (isLoadBalanced_accounts_for_all (Fair.constructor "A" 30000)
    [("0", {| partitionId := "0"; ownerId := Some "A";
              lastModifiedTimeInMS := Some 99000%Z |});
     ("1", {| partitionId := "1"; ownerId := Some "B";
              lastModifiedTimeInMS := Some 99000%Z |})]
    ["0"; "1"]) as [L U].
  - vm_compute. reflexivity.
  - split; [exact L|]. apply U.
    + repeat constructor; simpl; intuition discriminate.
    + intros p Ip. exact Ip.
Defined.

(** ** [_findPartitionToSteal] *)

Lemma steal_fold_first opm : forall st,
  steal_inv st ->
  let res := fst (fold_left Fair.steal_step opm st) in
  (res = fst st
   /\ Forall (fun e => length (snd e) <= length (fst st)) opm)
  \/ (exists before o after,
        opm = before ++ (o, res) :: after
        /\ length (fst st) < length res
        /\ Forall (fun e => length (snd e) < length res) before
        /\ Forall (fun e => length (snd e) <= length res) after).
Proof.
  induction opm as [|[o l] opm IH]; intros st I; simpl.
  - left. split; [reflexivity | constructor].
  - specialize (IH _ (steal_step_inv st (o, l) I)). simpl in IH.
    assert (Hst : (Fair.steal_step st (o, l)
                   = (l, inject_Z (Z.of_nat (length l)))
                   /\ length (fst st) < length l)
                  \/ (Fair.steal_step st (o, l) = st
                      /\ length l <= length (fst st))).
    { unfold Fair.steal_step. simpl. rewrite (I (length l)).
      destruct (Nat.ltb_spec (length (fst st)) (length l)); [left|right]; auto. }
    destruct Hst as [[E Hlt]|[E Hle]]; rewrite E in *; simpl in *.
    + right. destruct IH as [[Er Hall]|(before & o' & after & Eo & Hl & Hb & Ha)].
      * exists [], o, opm. rewrite Er. simpl.
        repeat split; [exact Hlt | constructor | exact Hall].
      * exists ((o, l) :: before), o', after. rewrite Eo at 1. simpl.
        repeat split; [lia | constructor; [simpl; lia | exact Hb] | exact Ha].
    + destruct IH as [[Er Hall]|(before & o' & after & Eo & Hl & Hb & Ha)].
      * left. split; [exact Er|]. constructor; [simpl; lia | exact Hall].
      * right. exists ((o, l) :: before), o', after. rewrite Eo at 1. simpl.
        repeat split; [lia | constructor; [simpl; lia | exact Hb] | exact Ha].
Qed.

(** X10. [_findPartitionToSteal] raises a [TypeError] exactly when no owner of
    the map holds a partition (in particular on an empty map): [maxList]
    stays empty and its element read is [undefined]. *)
Theorem findPartitionToSteal_throws_iff
    (r : Q) (opm : OwnerPartitionMap) :
  (0 <= r)%Q -> (r < 1)%Q ->
  (Fair._findPartitionToSteal r opm = Throws
   <-> Forall (fun n => n = 0) (counts opm)).
Proof.
  intros H0 H1. unfold Fair._findPartitionToSteal.
  destruct (maxOwnershipList_spec opm) as [Hall Hin]. simpl in Hall, Hin.
  split.
  - intros Et.
    destruct (Fair.maxOwnershipList opm) as [|po l] eqn:Em.
    + eapply Forall_impl; [|exact Hall]. simpl. intros; lia.
    + destruct (array_at_random _ (po :: l) r H0 H1 ltac:(discriminate))
        as (x & Ex & _).
      rewrite Ex in Et. discriminate.
  - intros Hz.
    assert (Em : Fair.maxOwnershipList opm = []).
    { destruct Hin as [E|(o & Io)]; [exact E|].
      rewrite Forall_forall in Hz.
      assert (L : length (Fair.maxOwnershipList opm) = 0).
      { apply Hz. unfold counts, JsMap.values. rewrite map_map.
        apply in_map_iff. exists (o, Fair.maxOwnershipList opm). auto. }
      now destruct (Fair.maxOwnershipList opm). }
    rewrite Em. now rewrite array_at_nil.
Qed.

Lemma findPartitionToSteal_throws_iff_witness :
  Fair._findPartitionToSteal (1 # 2) [(Some "A", [])] = Throws.
Proof.
  apply findPartitionToSteal_throws_iff.
  - unfold Qle; simpl; lia.
  - unfold Qlt; simpl; lia.
  - repeat constructor.
Defined.

(** X11. Ties are broken by map order: when some owner holds a partition,
    [_findPartitionToSteal] takes the partition from the first list of
    maximal length (every earlier list is strictly shorter, no later list
    is longer), and returns the [partitionId] of a record of that list. *)
Theorem findPartitionToSteal_first_longest
    (r : Q) (opm : OwnerPartitionMap) :
  (0 <= r)%Q -> (r < 1)%Q ->
  Exists (fun n => 0 < n) (counts opm) ->
  exists before o maxList after po,
    opm = before ++ (o, maxList) :: after
    /\ Forall (fun e => length (snd e) < length maxList) before
    /\ Forall (fun e => length (snd e) <= length maxList) after
    /\ In po maxList
    /\ Fair._findPartitionToSteal r opm = Returns (partitionId po).
Proof.
  intros H0 H1 Hex. unfold Fair._findPartitionToSteal, Fair.maxOwnershipList.
  destruct (steal_fold_first opm _ steal_inv_init)
    as [[Er Hall]|(before & o & after & Eo & Hl & Hb & Ha)]; simpl in *.
  - exfalso. apply Exists_exists in Hex. destruct Hex as (n & In_n & Hn).
    unfold counts, JsMap.values in In_n. rewrite map_map in In_n.
    apply in_map_iff in In_n. destruct In_n as (e & <- & Ie).
    rewrite Forall_forall in Hall. specialize (Hall e Ie). simpl in Hall. lia.
  - set (maxList := fst (fold_left Fair.steal_step opm ([], Number_MIN_VALUE)))
      in *.
    assert (Hne : maxList <> []) by (destruct maxList; simpl in *; [lia|discriminate]).
    destruct (array_at_random _ maxList r H0 H1 Hne) as (po & Epo & Ipo).
    exists before, o, maxList, after, po.
    rewrite Epo. repeat split; auto.
Qed.

Lemma findPartitionToSteal_first_longest_witness :
  exists before o maxList after po,
    [(Some "A", [{| partitionId := "0"; ownerId := Some "A";
                    lastModifiedTimeInMS := None |}]);
     (Some "B", [{| partitionId := "1"; ownerId := Some "B";
                    lastModifiedTimeInMS := None |}])]
    = before ++ (o, maxList) :: after
    /\ Forall (fun e => length (snd e) < length maxList) before
    /\ Forall (fun e => length (snd e) <= length maxList) after
    /\ In po maxList
    /\ Fair._findPartitionToSteal (1 # 2)
         [(Some "A", [{| partitionId := "0"; ownerId := Some "A";
                         lastModifiedTimeInMS := None |}]);
          (Some "B", [{| partitionId := "1"; ownerId := Some "B";
                         lastModifiedTimeInMS := None |}])]
       = Returns (partitionId po).
Proof.
  apply findPartitionToSteal_first_longest.
  - unfold Qle; simpl; lia.
  - unfold Qlt; simpl; lia.
  - left. simpl. lia.
Defined.

(** ** The owner map and the decision of [loadBalance] *)

Lemma get_app_some {K V : Type} `{EqDec K} (m m' : list (K * V)) (k : K)
    (v : V) :
  JsMap.get k m = Some v -> JsMap.get k (m ++ m') = Some v.
Proof.
  induction m as [|[k0 v0] m IH]; simpl; [discriminate|].
  destruct (eq_dec k k0); auto.
Qed.

(** X12. The grouping loop of [loadBalance] partitions the active records by
    owner: the owner map has distinct keys, each list holds exactly the
    active records of its owner in ledger order, only the caller can have
    an empty list, every active record is found in the list of its owner,
    and the lists together have as many records as the active view. *)
Theorem ownerMap_partitions_active
    (this : Fair.FairPartitionLoadBalancer) (active : Ledger) :
  let opm := Fair.buildOwnerPartitionMap this active in
  NoDup (JsMap.keys opm)
  /\ (forall o lst, In (o, lst) opm ->
        lst = owned_by o (JsMap.values active) /\ (lst <> [] \/ o = me this))
  /\ (forall po, In po (JsMap.values active) ->
        exists lst, JsMap.get (ownerId po) opm = Some lst /\ In po lst)
  /\ list_sum (counts opm) = length active.
Proof.
  intros opm. split; [apply ownerMap_NoDup|].
  split; [intros o lst; apply ownerMap_In|].
  split; [|apply ownerMap_sum].
  intros po Ipo.
  assert (Io : In po (owned_by (ownerId po) (JsMap.values active))).
  { apply filter_In. split; [exact Ipo | now apply owner_is_true]. }
  assert (G : JsMap.get (ownerId po) (grouped (JsMap.values active))
              = Some (owned_by (ownerId po) (JsMap.values active))).
  { rewrite grouped_get.
    destruct (owned_by (ownerId po) (JsMap.values active));
      [destruct Io | reflexivity]. }
  exists (owned_by (ownerId po) (JsMap.values active)).
  split; [|exact Io]. unfold opm.
  destruct (buildOwnerPartitionMap_cases this active) as [[_ ->]|[_ ->]].
  - exact G.
  - now apply get_app_some.
Qed.

(** X13. The decision of a non-bootstrap call.  With [C] the number of
    owners of the view, [loadBalance] returns exactly one partition id when
    the caller holds fewer than [floor(P/C)] partitions, or holds at most
    [floor(P/C)] while fewer records are active than there are candidates;
    in every other case it returns the empty list. *)
Theorem loadBalance_decision
    (this : Fair.FairPartitionLoadBalancer) (clock : nat -> Z) (r : Q)
    (ledger : Ledger) (parts : list string) :
  let active := Fair._removeInactivePartitionOwnerships this clock ledger in
  let C := length (view_owners this active) in
  let mine := held active (me this) in
  (0 <= r)%Q -> (r < 1)%Q ->
  active <> [] ->
  ((mine < length parts / C
    \/ (length active < length parts /\ mine <= length parts / C)) ->
   exists p, Fair.loadBalance this clock r ledger parts = Returns [Some p])
  /\ (~ (mine < length parts / C
         \/ (length active < length parts /\ mine <= length parts / C)) ->
      Fair.loadBalance this clock r ledger parts = Returns []).
Proof.
  intros active C mine H0 H1 Hne.
  set (opm := Fair.buildOwnerPartitionMap this active).
  assert (HC : JsMap.size opm = C) by apply ownerMap_size_view.
  assert (Hlb : Fair.loadBalance this clock r ledger parts
    = if Fair._isLoadBalanced (length parts / C) (length parts mod C) opm
      then Returns []
      else if (mine <? length parts / C)
              || ((length active <? length parts)
                  && (mine <? length parts / C + 1))
           then if length (Fair.unOwnedPartitionIds active parts) =? 0
                then match Fair._findPartitionToSteal r opm with
                     | Throws => Throws
                     | Returns p => Returns [Some p]
                     end
                else Returns [array_at (Fair.unOwnedPartitionIds active parts)
                                (random_index r
                                   (length (Fair.unOwnedPartitionIds active
                                              parts)))]
           else Returns []).
  { unfold Fair.loadBalance. fold active.
    destruct (JsMap.size active =? 0) eqn:Esz.
    { apply size_zero in Esz. congruence. }
    fold opm. rewrite HC. unfold opm.
    rewrite shouldOwnMorePartitions_eval. fold mine. fold opm.
    destruct (Fair._isLoadBalanced _ _ opm); [reflexivity|].
    destruct (_ || _); reflexivity. }
  assert (Hbal : Fair._isLoadBalanced (length parts / C) (length parts mod C)
                   opm = true ->
                 length active = length parts /\ length parts / C <= mine).
  { intros Eb. split.
    - apply (balanced_active_count this active parts).
      fold opm. now rewrite HC.
    - apply isLoadBalanced_spec in Eb. destruct Eb as [F _].
      rewrite Forall_forall in F.
      assert (I : In mine (counts opm)).
      { unfold opm. rewrite ownerMap_counts_held. apply in_map.
        apply ownerMap_keys. now left. }
      apply F in I. lia. }
  rewrite Hlb. split.
  - intros Hc.
    destruct (Fair._isLoadBalanced _ _ opm) eqn:Eb.
    { destruct (Hbal eq_refl). lia. }
    assert (Hs : (mine <? length parts / C)
                 || ((length active <? length parts)
                     && (mine <? length parts / C + 1)) = true).
    { apply orb_true_iff. destruct Hc as [Hc|[Hc1 Hc2]].
      - left. now apply Nat.ltb_lt.
      - right. apply andb_true_iff. split; apply Nat.ltb_lt; lia. }
    rewrite Hs.
    destruct (Fair.unOwnedPartitionIds active parts) as [|u us] eqn:Eu.
    + simpl.
      destruct (findPartitionToSteal_returns this r active H0 H1 Hne)
        as (po & Est & _).
      fold opm in Est. rewrite Est. eauto.
    + change (length (u :: us) =? 0) with false. cbv iota.
      destruct (array_at_random _ (u :: us) r H0 H1 ltac:(discriminate))
        as (p & Ep & _).
      rewrite Ep. eauto.
  - intros Hc.
    destruct (Fair._isLoadBalanced _ _ opm); [reflexivity|].
    destruct (Nat.ltb_spec mine (length parts / C)); [tauto|].
    destruct (Nat.ltb_spec (length active) (length parts)); simpl;
      [|reflexivity].
    destruct (Nat.ltb_spec mine (length parts / C + 1)); [|reflexivity].
    exfalso. apply Hc. right. lia.
Qed.

Lemma loadBalance_decision_witness :
  exists p,
    Fair.loadBalance (Fair.constructor "B" 30000) (fun _ => 100000%Z) (1 # 2)
      [("0", {| partitionId := "0"; ownerId := Some "A";
                lastModifiedTimeInMS := Some 99000%Z |})]
      ["0"; "1"; "2"] = Returns [Some p].
Proof.
  refine (proj1 (loadBalance_decision
    (Fair.constructor "B" 30000) (fun _ => 100000%Z) (1 # 2)
    [("0", {| partitionId := "0"; ownerId := Some "A";
              lastModifiedTimeInMS := Some 99000%Z |})]
    ["0"; "1"; "2"] _ _ _) _).
  - unfold Qle; simpl; lia.
  - unfold Qlt; simpl; lia.
  - vm_compute. discriminate.
  - left. vm_compute. lia.
Defined.

(** X14. Unclaimed partitions come first: while some candidate is not in the
    active view, whatever [loadBalance] returns is a candidate that nobody
    actively owns; it never steals then. *)
Theorem loadBalance_prefers_unowned
    (this : Fair.FairPartitionLoadBalancer) (clock : nat -> Z) (r : Q)
    (ledger : Ledger) (parts : list string) (claims : list (option string)) :
  let active := Fair._removeInactivePartitionOwnerships this clock ledger in
  (0 <= r)%Q -> (r < 1)%Q ->
  Fair.unOwnedPartitionIds active parts <> [] ->
  Fair.loadBalance this clock r ledger parts = Returns claims ->
  forall c, In c claims ->
    exists p, c = Some p /\ In p parts /\ JsMap.has p active = false.
Proof.
  intros active H0 H1 Hun. unfold Fair.loadBalance. fold active.
  assert (Hpick : forall c,
            c = array_at (Fair.unOwnedPartitionIds active parts)
                  (random_index r
                     (length (Fair.unOwnedPartitionIds active parts))) ->
            exists p, c = Some p /\ In p parts /\ JsMap.has p active = false).
  { intros c ->. destruct (array_at_random _ _ r H0 H1 Hun) as (p & -> & Ip).
    exists p. split; [reflexivity|]. unfold Fair.unOwnedPartitionIds in Ip.
    apply filter_In in Ip. destruct Ip as [Ip Hh]. split; [exact Ip|].
    now destruct (JsMap.has p active). }
  destruct (JsMap.size active =? 0) eqn:Esz.
  - apply size_zero in Esz. intros E c Ic. inversion E; subst claims.
    destruct Ic as [<-|[]]. apply Hpick. rewrite Esz.
    unfold Fair.unOwnedPartitionIds. simpl.
    replace (filter (fun _ : string => true) parts) with parts; [reflexivity|].
    clear. induction parts as [|x l IH]; simpl; [reflexivity | now f_equal].
  - destruct (Fair._isLoadBalanced _ _ _).
    { intros E c Ic. inversion E; subst claims. destruct Ic. }
    rewrite shouldOwnMorePartitions_eval. destruct (_ || _).
    2:{ intros E c Ic. inversion E; subst claims. destruct Ic. }
    fold (Fair.unOwnedPartitionIds active parts).
    destruct (Fair.unOwnedPartitionIds active parts) as [|u us] eqn:Eu;
      [congruence|].
    change (length (u :: us) =? 0) with false. cbv iota.
    intros E c Ic. inversion E; subst claims. destruct Ic as [<-|[]].
    now apply Hpick.
Qed.

Lemma loadBalance_prefers_unowned_witness :
  exists p, Some "2" = Some p /\ In p ["0"; "1"; "2"]
    /\ JsMap.has p
         (Fair._removeInactivePartitionOwnerships
            (Fair.constructor "B" 30000) (fun _ => 100000%Z)
            [("0", {| partitionId := "0"; ownerId := Some "A";
                      lastModifiedTimeInMS := Some 99000%Z |})]) = false.
Proof.
  apply (loadBalance_prefers_unowned
    (Fair.constructor "B" 30000) (fun _ => 100000%Z) (1 # 2)
    [("0", {| partitionId := "0"; ownerId := Some "A";
              lastModifiedTimeInMS := Some 99000%Z |})]
    ["0"; "1"; "2"] [Some "2"]).
  - unfold Qle; simpl; lia.
  - unfold Qlt; simpl; lia.
  - vm_compute. discriminate.
  - vm_compute. reflexivity.
  - now left.
Defined.

(** X15. An [undefined] claim has one cause only: if the returned list holds
    [undefined], then the candidate list is empty and so is the active
    view.  With at least one candidate every returned element is a
    partition id. *)
Theorem loadBalance_undefined_only_without_candidates
    (this : Fair.FairPartitionLoadBalancer) (clock : nat -> Z) (r : Q)
    (ledger : Ledger) (parts : list string) (claims : list (option string)) :
  (0 <= r)%Q -> (r < 1)%Q ->
  Fair.loadBalance this clock r ledger parts = Returns claims ->
  In None claims ->
  parts = []
  /\ Fair._removeInactivePartitionOwnerships this clock ledger = [].
Proof.
  intros H0 H1. unfold Fair.loadBalance.
  set (active := Fair._removeInactivePartitionOwnerships this clock ledger).
  destruct (JsMap.size active =? 0) eqn:Esz.
  - apply size_zero in Esz. intros E I. inversion E; subst claims.
    destruct I as [I|[]]. split; [|exact Esz].
    destruct parts as [|x l]; [reflexivity|].
    destruct (array_at_random _ (x :: l) r H0 H1 ltac:(discriminate))
      as (p & Ep & _).
    congruence.
  - assert (Hne : active <> []).
    { intros E. apply size_zero in E. congruence. }
    destruct (Fair._isLoadBalanced _ _ _).
    { intros E I. inversion E; subst claims. destruct I. }
    rewrite shouldOwnMorePartitions_eval. destruct (_ || _).
    2:{ intros E I. inversion E; subst claims. destruct I. }
    fold (Fair.unOwnedPartitionIds active parts).
    destruct (Fair.unOwnedPartitionIds active parts) as [|u us] eqn:Eu.
    + simpl.
      destruct (findPartitionToSteal_returns this r active H0 H1 Hne)
        as (po & -> & _).
      intros E I. inversion E; subst claims.
      destruct I as [I|[]]. discriminate.
    + change (length (u :: us) =? 0) with false. cbv iota.
      destruct (array_at_random _ (u :: us) r H0 H1 ltac:(discriminate))
        as (p & -> & _).
      intros E I. inversion E; subst claims.
      destruct I as [I|[]]. discriminate.
Qed.

Lemma loadBalance_undefined_only_without_candidates_witness :
  @nil string = []
  /\ Fair._removeInactivePartitionOwnerships (Fair.constructor "A" 30000)
       (fun _ => 100000%Z) [] = [].
Proof.
  apply (loadBalance_undefined_only_without_candidates
    (Fair.constructor "A" 30000) (fun _ => 100000%Z) (1 # 2) [] [] [None]).
  - unfold Qle; simpl; lia.
  - unfold Qlt; simpl; lia.
  - reflexivity.
  - now left.
Defined.

(** X16. [loadBalance] never invents a partition id: every id it returns is
    a candidate or the [partitionId] of an active record of the ledger. *)
Theorem loadBalance_claims_known_ids
    (this : Fair.FairPartitionLoadBalancer) (clock : nat -> Z) (r : Q)
    (ledger : Ledger) (parts : list string) (claims : list (option string))
    (p : string) :
  let active := Fair._removeInactivePartitionOwnerships this clock ledger in
  Fair.loadBalance this clock r ledger parts = Returns claims ->
  In (Some p) claims ->
  In p parts
  \/ exists po, In po (JsMap.values active) /\ partitionId po = p.
Proof.
  intros active. unfold Fair.loadBalance. fold active.
  assert (Hat : forall (l : list string) (i : Z),
            array_at l i = Some p -> In p l).
  { intros l i. unfold array_at. destruct (i <? 0)%Z; [discriminate|].
    apply nth_error_In. }
  destruct (JsMap.size active =? 0).
  - intros E I. inversion E; subst claims. destruct I as [I|[]].
    left. eapply Hat; eauto.
  - destruct (Fair._isLoadBalanced _ _ _).
    { intros E I. inversion E; subst claims. destruct I. }
    destruct (Fair._shouldOwnMorePartitions _ _ _ _) as [[|]|];
      [| intros E I; inversion E; subst claims; destruct I | discriminate].
    fold (Fair.unOwnedPartitionIds active parts).
    destruct (length (Fair.unOwnedPartitionIds active parts) =? 0).
    + unfold Fair._findPartitionToSteal.
      set (opm := Fair.buildOwnerPartitionMap this active).
      destruct (array_at (Fair.maxOwnershipList opm) _) as [po|] eqn:Epo;
        [|discriminate].
      intros E I. inversion E; subst claims. destruct I as [I|[]].
      inversion I; subst p. right. exists po. split; [|reflexivity].
      assert (Im : In po (Fair.maxOwnershipList opm)).
      { revert Epo. unfold array_at. destruct (_ <? 0)%Z; [discriminate|].
        apply nth_error_In. }
      destruct (maxOwnershipList_spec opm) as [_ [Hnil|(o & Io)]].
      * rewrite Hnil in Im. destruct Im.
      * apply ownerMap_In in Io. destruct Io as [Hm _].
        rewrite Hm in Im. unfold owned_by in Im. apply filter_In in Im. tauto.
    + intros E I. inversion E; subst claims. destruct I as [I|[]].
      left. apply Hat in I. unfold Fair.unOwnedPartitionIds in I.
      apply filter_In in I. tauto.
Qed.

Lemma loadBalance_claims_known_ids_witness :
  In "0" ["0"; "1"]
  \/ exists po,
       In po (JsMap.values
                (Fair._removeInactivePartitionOwnerships
                   (Fair.constructor "B" 30000) (fun _ => 100000%Z)
                   [("0", {| partitionId := "0"; ownerId := Some "A";
                             lastModifiedTimeInMS := Some 99000%Z |});
                    ("1", {| partitionId := "1"; ownerId := Some "A";
                             lastModifiedTimeInMS := Some 99000%Z |})]))
       /\ partitionId po = "0".
Proof.
  apply (loadBalance_claims_known_ids
    (Fair.constructor "B" 30000) (fun _ => 100000%Z) (1 # 4)
    [("0", {| partitionId := "0"; ownerId := Some "A";
              lastModifiedTimeInMS := Some 99000%Z |});
     ("1", {| partitionId := "1"; ownerId := Some "A";
              lastModifiedTimeInMS := Some 99000%Z |})]
    ["0"; "1"] [Some "0"]).
  - vm_compute. reflexivity.
  - now left.
Defined.
